(** * CyclicColourVisual: the cyclic colour-map legend of mathplot

    A shallow embedding of [mplot::CyclicColourVisual] (the frame, the tick
    labels and the colour fill of the legend disc) and of the colour-map
    test program, together with the properties the specification states
    about them.

    Conventions of the embedding.
    - [unsigned int] and [int] values are integers in [Z]; every conversion
      and every arithmetic operation that C++ performs modulo [2^32] is
      written out with [wrap_u] and [wrap_s].
    - The floating-point type is a parameter: the class [FloatOps] lists the
      operations the code applies to [float] values.  Structural properties
      are proved for every instance; [binary32] is IEEE-754 single precision
      (round to nearest even) and the instance on [R] is exact arithmetic.
      The visual is embedded at [F = float], so one numeric type serves for
      the template parameter and for the [float] members.
    - A vertex buffer is a list with one entry per pushed vertex. *)

From Stdlib Require Import ZArith List Bool Ascii String Lia.
From Stdlib Require Import Floats.SpecFloat.
From Stdlib Require Import Reals Lra.
Import ListNotations.

#[local] Open Scope Z_scope.

(** ** Machine integers *)

Module Int32.

Definition modulus : Z := 2 ^ 32.
Definition half_modulus : Z := 2 ^ 31.

(** Conversion to [unsigned int], and unsigned arithmetic results. *)
Definition wrap_u (x : Z) : Z := x mod modulus.

(** Conversion to [int] (two's complement). *)
Definition wrap_s (x : Z) : Z := (x + half_modulus) mod modulus - half_modulus.

End Int32.

Import Int32.

(** ** Floating-point interface *)

Class FloatOps (F : Type) : Type := {
  fzero : F;                 (* 0.0f, F{0} *)
  fadd : F -> F -> F;
  fsub : F -> F -> F;
  fmul : F -> F -> F;
  fdiv : F -> F -> F;
  fabs : F -> F;
  fsin : F -> F;
  fcos : F -> F;
  fltb : F -> F -> bool;     (* a < b *)
  feqb : F -> F -> bool;     (* a == b *)
  of_int : Z -> F;           (* conversion of an integer value to F *)
  pi : F;                    (* sm::mathconst<F>::pi *)
  two_pi : F;                (* sm::mathconst<F>::two_pi *)
  pi_over_2 : F              (* sm::mathconst<F>::pi_over_2 *)
}.

(** [a > b] as the code writes it. *)
Definition fgtb {F : Type} `{FloatOps F} (a b : F) : bool := fltb b a.

(** Decimal literals.  A literal such as [0.1f] denotes the value of [F]
    nearest to the decimal; a correctly rounded division of two exactly
    representable integers yields the same value. *)
Definition f_two {F : Type} `{FloatOps F} : F := of_int 2.
Definition f_twenty {F : Type} `{FloatOps F} : F := of_int 20.
Definition f_tenth {F : Type} `{FloatOps F} : F := fdiv (of_int 1) (of_int 10).
Definition f_half {F : Type} `{FloatOps F} : F := fdiv (of_int 1) (of_int 2).

(** ** Vectors, colours and the mesh buffers *)

Section Geometry.

Context {F : Type} `{FloatOps F}.

(** [sm::vec<float>] with three components. *)
Record vec : Type := mkvec { vx : F; vy : F; vz : F }.

(** [std::array<float, 3>]. *)
Definition rgb : Type := (F * F * F)%type.

Definition vec_add (a b : vec) : vec :=
  mkvec (fadd (vx a) (vx b)) (fadd (vy a) (vy b)) (fadd (vz a) (vz b)).

(** [v * s] for a scalar [s]. *)
Definition vec_scale (a : vec) (s : F) : vec :=
  mkvec (fmul (vx a) s) (fmul (vy a) s) (fmul (vz a) s).

(** Modelled from the spec: [vertex_push] of VisualModel.h (not among the
    sources) appends one vertex attribute to a growing buffer. *)
Definition vertex_push {A : Type} (x : A) (buf : list A) : list A := buf ++ [x].

(** Modelled from the spec: the vertex buffers of VisualModel.h (not among
    the sources), three parallel sequences and an index sequence, and the
    running vertex-count offset [idx], an unsigned 32-bit counter. *)
Record Mesh : Type := mkMesh {
  vertexPositions : list vec;
  vertexNormals : list vec;
  vertexColors : list rgb;
  indices : list Z;
  idx : Z
}.

Definition push_position (p : vec) (m : Mesh) : Mesh :=
  mkMesh (vertex_push p (vertexPositions m)) (vertexNormals m)
         (vertexColors m) (indices m) (idx m).

Definition push_normal (n : vec) (m : Mesh) : Mesh :=
  mkMesh (vertexPositions m) (vertex_push n (vertexNormals m))
         (vertexColors m) (indices m) (idx m).

Definition push_colour (c : rgb) (m : Mesh) : Mesh :=
  mkMesh (vertexPositions m) (vertexNormals m)
         (vertex_push c (vertexColors m)) (indices m) (idx m).

(** [indices.push_back (i)]. *)
Definition push_index (i : Z) (m : Mesh) : Mesh :=
  mkMesh (vertexPositions m) (vertexNormals m) (vertexColors m)
         (indices m ++ [i]) (idx m).

Definition set_idx (i : Z) (m : Mesh) : Mesh :=
  mkMesh (vertexPositions m) (vertexNormals m) (vertexColors m)
         (indices m) i.

(** Modelled from the spec: the text-measurement contract (TextGeometry
    is declared outside the sources) returns width, height, half-width and
    half-height of the rendered footprint. *)
Record TextGeometry : Type := mkGeom {
  width : F;
  height : F;
  half_width : F;
  half_height : F
}.

Record TextFeatures : Type := mkTF {
  fontsize : F;
  fontres : Z;
  colour : rgb
}.

(** A text object after [setupText (s, pos, colour)]. *)
Record VisualTextModel : Type := mkText {
  txt : string;
  txt_pos : vec;
  txt_colour : rgb
}.

(** Modelled from the spec: the colour converter (ColourMap.h is not among
    the sources) is a function from a value to an RGB triple. *)
Record ColourMap : Type := mkCM { convert : F -> rgb }.

(** The members of [CyclicColourVisual] and those it inherits. *)
Record Visual : Type := mkVisual {
  cm : ColourMap;
  show_perception_sine : bool;
  outer_radius : F;
  inner_radius : F;
  z : F;
  framecolour : rgb;
  draw_frame : bool;
  framelinewidth : F;
  labels : list string;
  label_angles : list F;
  tf : TextFeatures;
  draw_ticks : bool;
  ticklabelgap : F;
  numsegs : Z;               (* unsigned int *)
  numrings : Z;              (* unsigned int *)
  ticklabelheight : F;
  ticklabelwidth : F;
  (* inherited from VisualModel *)
  mv_offset : vec;
  ux : vec;
  uy : vec;
  uz : vec;
  texts : list VisualTextModel;
  mesh : Mesh
}.

Definition set_mesh (m : Mesh) (v : Visual) : Visual :=
  mkVisual (cm v) (show_perception_sine v) (outer_radius v) (inner_radius v)
           (z v) (framecolour v) (draw_frame v) (framelinewidth v) (labels v)
           (label_angles v) (tf v) (draw_ticks v) (ticklabelgap v)
           (numsegs v) (numrings v) (ticklabelheight v) (ticklabelwidth v)
           (mv_offset v) (ux v) (uy v) (uz v) (texts v) m.

Definition set_ticklabelgap (g : F) (v : Visual) : Visual :=
  mkVisual (cm v) (show_perception_sine v) (outer_radius v) (inner_radius v)
           (z v) (framecolour v) (draw_frame v) (framelinewidth v) (labels v)
           (label_angles v) (tf v) (draw_ticks v) g
           (numsegs v) (numrings v) (ticklabelheight v) (ticklabelwidth v)
           (mv_offset v) (ux v) (uy v) (uz v) (texts v) (mesh v).

Definition set_label_angles (a : list F) (v : Visual) : Visual :=
  mkVisual (cm v) (show_perception_sine v) (outer_radius v) (inner_radius v)
           (z v) (framecolour v) (draw_frame v) (framelinewidth v) (labels v)
           a (tf v) (draw_ticks v) (ticklabelgap v)
           (numsegs v) (numrings v) (ticklabelheight v) (ticklabelwidth v)
           (mv_offset v) (ux v) (uy v) (uz v) (texts v) (mesh v).

Definition set_ticklabelsize (h w : F) (v : Visual) : Visual :=
  mkVisual (cm v) (show_perception_sine v) (outer_radius v) (inner_radius v)
           (z v) (framecolour v) (draw_frame v) (framelinewidth v) (labels v)
           (label_angles v) (tf v) (draw_ticks v) (ticklabelgap v)
           (numsegs v) (numrings v) h w
           (mv_offset v) (ux v) (uy v) (uz v) (texts v) (mesh v).

(** The three members the label loop writes: the running maxima and the
    text objects. *)
Definition set_label_state (h w : F) (ts : list VisualTextModel) (v : Visual)
  : Visual :=
  mkVisual (cm v) (show_perception_sine v) (outer_radius v) (inner_radius v)
           (z v) (framecolour v) (draw_frame v) (framelinewidth v) (labels v)
           (label_angles v) (tf v) (draw_ticks v) (ticklabelgap v)
           (numsegs v) (numrings v) h w
           (mv_offset v) (ux v) (uy v) (uz v) ts (mesh v).

Definition push_text (t : VisualTextModel) (v : Visual) : Visual :=
  mkVisual (cm v) (show_perception_sine v) (outer_radius v) (inner_radius v)
           (z v) (framecolour v) (draw_frame v) (framelinewidth v) (labels v)
           (label_angles v) (tf v) (draw_ticks v) (ticklabelgap v)
           (numsegs v) (numrings v) (ticklabelheight v) (ticklabelwidth v)
           (mv_offset v) (ux v) (uy v) (uz v) (texts v ++ [t]) (mesh v).

(** *** Loop ranges *)

(** The values of [j] in [for (int j = 0; j < n; j++)]. *)
Definition count_up (n : Z) : list Z := map Z.of_nat (seq 0 (Z.to_nat n)).

(** The values of [ring] in [for (int ring = n; ring > 0; ring--)]. *)
Definition count_down (n : Z) : list Z := rev (map Z.of_nat (seq 1 (Z.to_nat n))).

(** *** fillFrameWithColour *)

(** The radii of one ring (lines 114 to 121). *)
Definition r_d (v : Visual) : F := fsub (outer_radius v) (inner_radius v).
Definition r_dr (v : Visual) : F := fdiv (r_d v) (of_int (numrings v)).
Definition r_out (v : Visual) (ring : Z) : F :=
  fadd (inner_radius v) (fmul (r_dr v) (of_int ring)).
Definition r_in (v : Visual) (ring : Z) : F :=
  fadd (inner_radius v) (fmul (r_dr v) (of_int (wrap_s (ring - 1)))).
Definition norm_r_out (v : Visual) (ring : Z) : F :=
  fdiv (fsub (r_out v ring) (inner_radius v)) (r_d v).
Definition norm_r_in (v : Visual) (ring : Z) : F :=
  fdiv (fsub (r_in v ring) (inner_radius v)) (r_d v).

(** The colour of one segment (lines 126 to 134). *)
Definition colour_angle (v : Visual) (j : Z) : F :=
  fmul (fdiv (of_int j) (of_int (numsegs v))) two_pi.

Definition decaying_sine (v : Visual) (norm_r : F) (j : Z) : F :=
  if show_perception_sine v
  then fmul (fmul (fmul f_tenth norm_r) norm_r)
            (fsin (fmul (fmul f_twenty pi) (colour_angle v j)))
  else fzero.

Definition colour_fraction (v : Visual) (j : Z) : F :=
  fdiv (colour_angle v j) two_pi.

Definition col_out (v : Visual) (ring j : Z) : rgb :=
  convert (cm v) (fadd (colour_fraction v j) (decaying_sine v (norm_r_out v ring) j)).

Definition col_in (v : Visual) (ring j : Z) : rgb :=
  convert (cm v) (fadd (colour_fraction v j) (decaying_sine v (norm_r_in v ring) j)).

(** The position of one vertex (lines 136, 137 and 141). *)
Definition seg_t (v : Visual) (j : Z) : F :=
  fdiv (fmul (of_int j) two_pi) (of_int (numsegs v)).

Definition centre (v : Visual) : vec := mkvec fzero fzero (z v).

Definition ring_point (v : Visual) (r : F) (j : Z) : vec :=
  vec_add (centre v)
          (vec_add (vec_scale (vec_scale (uy v) (fsin (seg_t v j))) r)
                   (vec_scale (vec_scale (ux v) (fcos (seg_t v j))) r)).

(** Body of the first inner loop: two vertices per segment. *)
Definition push_segment_vertices (v : Visual) (ring : Z) (m : Mesh) (j : Z) : Mesh :=
  let m := push_position (ring_point v (r_in v ring) j) m in
  let m := push_normal (uz v) m in
  let m := push_colour (col_in v ring j) m in
  let m := push_position (ring_point v (r_out v ring) j) m in
  let m := push_normal (uz v) m in
  push_colour (col_out v ring j) m.

(** [int jn = (numsegs + ((j+1) % numsegs)) % numsegs], evaluated in
    [unsigned int] and converted back to [int]. *)
Definition next_segment (nsegs j : Z) : Z :=
  wrap_s (wrap_u (nsegs + wrap_u (wrap_s (j + 1)) mod nsegs) mod nsegs).

(** [this->idx + e] for an [int] expression [e]. *)
Definition idx_plus (m : Mesh) (e : Z) : Z := wrap_u (idx m + wrap_u e).

(** Body of the second inner loop: two triangles per segment. *)
Definition push_segment_indices (v : Visual) (m : Mesh) (j : Z) : Mesh :=
  let jn := next_segment (numsegs v) j in
  let m := push_index (idx_plus m (wrap_s (2 * j))) m in
  let m := push_index (idx_plus m (wrap_s (2 * jn))) m in
  let m := push_index (idx_plus m (wrap_s (wrap_s (2 * jn) + 1))) m in
  let m := push_index (idx_plus m (wrap_s (2 * j))) m in
  let m := push_index (idx_plus m (wrap_s (wrap_s (2 * jn) + 1))) m in
  push_index (idx_plus m (wrap_s (wrap_s (2 * j) + 1))) m.

(** The range of both inner loops: [j < static_cast<int>(numsegs)]. *)
Definition segment_range (v : Visual) : list Z := count_up (wrap_s (numsegs v)).

(** The range of the outer loop: [int ring = this->numrings]. *)
Definition ring_range (v : Visual) : list Z := count_down (wrap_s (numrings v)).

(** Body of the outer loop. *)
Definition fill_ring (v : Visual) (m : Mesh) (ring : Z) : Mesh :=
  let m := fold_left (push_segment_vertices v ring) (segment_range v) m in
  let m := fold_left (push_segment_indices v) (segment_range v) m in
  set_idx (wrap_u (idx m + wrap_u (2 * numsegs v))) m.

Definition fill_mesh (v : Visual) (m : Mesh) : Mesh :=
  fold_left (fill_ring v) (ring_range v) m.

Definition fillFrameWithColour (v : Visual) : Visual :=
  set_mesh (fill_mesh v (mesh v)) v.

End Geometry.

Arguments vec F : clear implicits.
Arguments rgb F : clear implicits.
Arguments Mesh F : clear implicits.
Arguments TextGeometry F : clear implicits.
Arguments TextFeatures F : clear implicits.
Arguments VisualTextModel F : clear implicits.
Arguments ColourMap F : clear implicits.
Arguments Visual F : clear implicits.

(** ** The frame, the tick labels and the entry point *)

Section Legend.

Context {F : Type} `{FloatOps F}.

(** The two collaborators of VisualModel.h that the visual calls: the
    ribbon builder [computeFlatCircleLine (centre, normal, radius,
    linewidth, colour, segments)], which appends to the mesh buffers, and
    the text measurement [makeVisualTextModel (tf)->getTextGeometry (s)]. *)
Variable computeFlatCircleLine :
  vec F -> vec F -> F -> F -> rgb F -> Z -> Mesh F -> Mesh F.
Variable getTextGeometry : TextFeatures F -> string -> TextGeometry F.

(** *** drawFrame *)

Definition drawFrame (v : Visual F) : Visual F :=
  let m := computeFlatCircleLine
             (mkvec fzero fzero (z v)) (uz v)
             (fadd (outer_radius v) (fdiv (framelinewidth v) f_two))
             (framelinewidth v) (framecolour v) (numsegs v) (mesh v) in
  let m := computeFlatCircleLine
             (mkvec fzero fzero (z v)) (uz v)
             (fadd (inner_radius v) (fdiv (framelinewidth v) f_two))
             (framelinewidth v) (framecolour v) (numsegs v) m in
  set_mesh m v.

(** *** drawTickLabels *)

(** [d[i] = x] on a deque, for [i] within range. *)
Fixpoint list_set {A : Type} (l : list A) (i : nat) (x : A) : list A :=
  match l, i with
  | [], _ => []
  | _ :: t, O => x :: t
  | h :: t, S k => h :: list_set t k x
  end.

(** [label_angles.resize (n)] on an empty deque. *)
Definition resize_empty (n : nat) : list F := repeat fzero n.

(** Body of the loop of lines 80 to 86, for [n = labels.size()]. *)
Definition auto_angle_step (n : nat) (angles : list F) (i : nat) : list F :=
  let angles :=
    list_set angles i
      (fadd pi_over_2
            (fmul (of_int (Z.of_nat i)) (fdiv two_pi (of_int (Z.of_nat n))))) in
  let angles :=
    list_set angles i
      (if fltb (nth i angles fzero) fzero
       then fadd (nth i angles fzero) two_pi
       else nth i angles fzero) in
  list_set angles i
    (if fgtb (nth i angles fzero) two_pi
     then fsub (nth i angles fzero) two_pi
     else nth i angles fzero).

(** Lines 79 to 86: the angles generated for [n] labels. *)
Definition auto_label_angles (n : nat) : list F :=
  fold_left (auto_angle_step n) (seq 0 n) (resize_empty n).

(** Lines 96 to 102: the clearance, the placement radius and the anchor of
    a label at the angle [a] with the measured geometry [geom]. *)
Definition geom_gap (a : F) (geom : TextGeometry F) : F :=
  fadd (fabs (fmul (fcos a) (half_width geom)))
       (fabs (fmul (fsin a) (half_height geom))).

Definition lbl_r (v : Visual F) (a : F) (geom : TextGeometry F) : F :=
  fadd (fadd (fadd (outer_radius v) (framelinewidth v)) (ticklabelgap v))
       (geom_gap a geom).

Definition lblpos (v : Visual F) (a : F) (geom : TextGeometry F) : vec F :=
  mkvec (fsub (fmul (lbl_r v a geom) (fcos a)) (half_width geom))
        (fsub (fmul (lbl_r v a geom) (fsin a)) (half_height geom))
        (z v).

(** Lines 90 to 104: one label.  [None] stands for the undefined
    behaviour of [labels[i]] with [i] out of range. *)
Definition place_label (v : Visual F) (i : nat) (a : F) : option (Visual F) :=
  match nth_error (labels v) i with
  | None => None
  | Some s =>
      let geom := getTextGeometry (tf v) s in
      let h := if fgtb (height geom) (ticklabelheight v)
               then height geom else ticklabelheight v in
      let w := if fgtb (width geom) (ticklabelwidth v)
               then width geom else ticklabelwidth v in
      let v := set_ticklabelsize h w v in
      Some (push_text (mkText s (vec_add (lblpos v a geom) (mv_offset v))
                              (colour (tf v))) v)
  end.

(** The loop of lines 89 to 105 over [label_angles], from index [i]. *)
Fixpoint place_labels (i : nat) (angles : list F) (v : Visual F)
  : option (Visual F) :=
  match angles with
  | [] => Some v
  | a :: rest =>
      match place_label v i a with
      | None => None
      | Some v' => place_labels (S i) rest v'
      end
  end.

(** The text object of the label [s] at the angle [a], as [place_label]
    sets it up. *)
Definition label_model (v : Visual F) (a : F) (s : string) : VisualTextModel F :=
  mkText s (vec_add (lblpos v a (getTextGeometry (tf v) s)) (mv_offset v))
         (colour (tf v)).

(** The value the three assignments of lines 82 to 85 leave in
    [label_angles[i]]. *)
Definition rescale (a : F) : F :=
  let a := if fltb a fzero then fadd a two_pi else a in
  if fgtb a two_pi then fsub a two_pi else a.

Definition auto_angle (n i : nat) : F :=
  rescale (fadd pi_over_2
                (fmul (of_int (Z.of_nat i)) (fdiv two_pi (of_int (Z.of_nat n))))).

(** Both loops count with an [unsigned int] against a container size; a
    size of [2^32] or more makes the counter wrap and the loop run on, for
    which the embedding returns [None]. *)
Definition fits_unsigned {A : Type} (l : list A) : bool :=
  Z.of_nat (List.length l) <? modulus.

Definition drawTickLabels (v : Visual F) : option (Visual F) :=
  let v := set_ticklabelsize fzero fzero v in
  match label_angles v with
  | [] =>
      if fits_unsigned (labels v) then
        let v := set_label_angles (auto_label_angles (List.length (labels v))) v in
        place_labels 0 (label_angles v) v
      else None
  | _ :: _ =>
      if fits_unsigned (label_angles v) then place_labels 0 (label_angles v) v
      else None
  end.

(** The text objects of the labels from index [i] on, one per angle. *)
Definition placed (v : Visual F) (i : nat) (angles : list F)
  : list (VisualTextModel F) :=
  map (fun p => label_model v (fst p) (snd p))
      (combine angles (skipn i (labels v))).

(** [drawTickLabels] with the angles it works on: those of the client, or
    the generated ones when the client gave none. *)
Definition working_angles (v : Visual F) : list F :=
  match label_angles v with
  | [] => auto_label_angles (List.length (labels v))
  | _ :: _ => label_angles v
  end.

(** *** initializeVertices *)

Definition initializeVertices (v : Visual F) : option (Visual F) :=
  let em_geom := getTextGeometry (tf v) "m"%string in
  let v := set_ticklabelgap (fdiv (width em_geom) f_two) v in
  let v := if draw_frame v then drawFrame v else v in
  match (if draw_ticks v then drawTickLabels v else Some v) with
  | None => None
  | Some v => Some (fillFrameWithColour v)
  end.

(** The gap derived from the reference glyph, and the visual after the
    gap and the frame steps. *)
Definition em_gap (v : Visual F) : F :=
  fdiv (width (getTextGeometry (tf v) "m"%string)) f_two.

Definition after_frame (v : Visual F) : Visual F :=
  if draw_frame v
  then drawFrame (set_ticklabelgap (em_gap v) v)
  else set_ticklabelgap (em_gap v) v.

End Legend.

Arguments drawFrame {F _} computeFlatCircleLine v.
Arguments drawTickLabels {F _} getTextGeometry v.
Arguments place_label {F _} getTextGeometry v i a.
Arguments label_model {F _} getTextGeometry v a s.
Arguments placed {F _} getTextGeometry v i angles.
Arguments place_labels {F _} getTextGeometry i angles v.
Arguments initializeVertices {F _} computeFlatCircleLine getTextGeometry v.
Arguments em_gap {F _} getTextGeometry v.
Arguments after_frame {F _} computeFlatCircleLine getTextGeometry v.

(** ** The colour converter and its test program *)

Section ColourMapModel.

Context {F : Type} `{FloatOps F}.

Definition f_one : F := of_int 1.

(** Modelled from the spec: ColourMap.h is not among the sources.  The
    fractional position of a value is
    [(value - range_min) / (range_max - range_min)]; a non-cyclic family
    clamps it to [0, 1] before its colour function is applied. *)
Definition normalise_int (range_min range_max value : Z) : F :=
  fdiv (of_int (value - range_min)) (of_int (range_max - range_min)).

Definition normalise_float (range_min range_max value : F) : F :=
  fdiv (fsub value range_min) (fsub range_max range_min).

Definition clamp01 (x : F) : F :=
  if fltb x fzero then fzero else if fgtb x f_one then f_one else x.

(** Modelled from the spec: [convert] of a non-cyclic family such as Jet,
    for an integral and for a floating-point input type; [family] is the
    colour function of the family on the normalised fraction. *)
Definition convert_int (family : F -> rgb F) (range_min range_max value : Z)
  : rgb F :=
  family (clamp01 (normalise_int range_min range_max value)).

Definition convert_float (family : F -> rgb F) (range_min range_max value : F)
  : rgb F :=
  family (clamp01 (normalise_float range_min range_max value)).

(** [std::array<float,3> mid_jet = {0.541f, 0.76f, 0.018f}]. *)
Definition mid_jet : rgb F :=
  (fdiv (of_int 541) (of_int 1000),
   fdiv (of_int 76) (of_int 100),
   fdiv (of_int 18) (of_int 1000)).

(** [operator==] of [std::array<float,3>]. *)
Definition rgb_eqb (a b : rgb F) : bool :=
  let '(a0, a1, a2) := a in
  let '(b0, b1, b2) := b in
  feqb a0 b0 && feqb a1 b1 && feqb a2 b2.

(** [if (c != mid_jet) { --rtn; ... }]. *)
Definition check_mid (c : rgb F) (rtn : Z) : Z :=
  if rgb_eqb c mid_jet then rtn else wrap_s (rtn - 1).

(** [main] of tests/testColourMap.cpp.  Every map is of the Jet family;
    [range_min] keeps its default 0 and [range_max] is the value the test
    assigns (the floating-point maps keep the default range [0, 1]). *)
Definition main (jet : F -> rgb F) : Z :=
  let rtn := 0 in
  let rtn := check_mid (convert_float jet fzero f_one f_half) rtn in  (* float *)
  let rtn := check_mid (convert_float jet fzero f_one f_half) rtn in  (* double *)
  let rtn := check_mid (convert_int jet 0 254 127) rtn in             (* unsigned char *)
  let rtn := check_mid (convert_int jet 0 126 63) rtn in              (* char *)
  let rtn := check_mid (convert_int jet 0 20000 10000) rtn in         (* int *)
  let rtn := check_mid (convert_int jet 0 10000 5000) rtn in          (* unsigned int *)
  let rtn := check_mid (convert_int jet 0 1000 500) rtn in            (* short *)
  let rtn := check_mid (convert_int jet 0 1000 500) rtn in            (* unsigned short *)
  let rtn := check_mid (convert_int jet 0 256 128) rtn in             (* unsigned long long *)
  let rtn := check_mid (convert_int jet 0 1000000 500000) rtn in      (* unsigned long long *)
  rtn.

End ColourMapModel.

(** ** IEEE-754 single precision *)

Module Binary32.

Definition prec : Z := 24.
Definition emax : Z := 128.

Definition float32 : Type := spec_float.

(** Conversion of an integer: rounding to nearest, ties to even. *)
Definition of_Z (n : Z) : float32 := binary_normalize prec emax n 0 false.

(** The constants of [sm::mathconst<float>]: the single-precision values
    nearest to pi/2, pi and 2 pi (bit patterns 0x3FC90FDB, 0x40490FDB and
    0x40C90FDB). *)
Definition pi_over_2_f : float32 := S754_finite false 13176795 (-23).
Definition pi_f : float32 := S754_finite false 13176795 (-22).
Definition two_pi_f : float32 := S754_finite false 13176795 (-21).

(** The single-precision value nearest to 3 pi / 2 (0x4096CBE4). *)
Definition three_pi_over_2_f : float32 := S754_finite false 9882596 (-21).

(** [std::sin] and [std::cos] come from the C library and are parameters
    of the instance. *)
Definition ops (sinf cosf : float32 -> float32) : FloatOps float32 :=
  {| fzero := S754_zero false;
     fadd := SFadd prec emax;
     fsub := SFsub prec emax;
     fmul := SFmul prec emax;
     fdiv := SFdiv prec emax;
     fabs := SFabs;
     fsin := sinf;
     fcos := cosf;
     fltb := SFltb;
     feqb := SFeqb;
     of_int := of_Z;
     pi := pi_f;
     two_pi := two_pi_f;
     pi_over_2 := pi_over_2_f |}.

End Binary32.

(** ** Exact arithmetic *)

Module Exact.

Definition ltb (a b : R) : bool := if Rlt_dec a b then true else false.
Definition eqb (a b : R) : bool := if Req_dec_T a b then true else false.

Definition ops : FloatOps R :=
  {| fzero := 0%R;
     fadd := Rplus;
     fsub := Rminus;
     fmul := Rmult;
     fdiv := Rdiv;
     fabs := Rabs;
     fsin := sin;
     fcos := cos;
     fltb := ltb;
     feqb := eqb;
     of_int := IZR;
     pi := PI;
     two_pi := (2 * PI)%R;
     pi_over_2 := (PI / 2)%R |}.

(** Modelled from the spec: [convert] of a cyclic family (ColourMap.h is
    not among the sources) takes its input modulo 1, so that 1.25 is
    equivalent to 0.25, and applies the colour function of the family. *)
Definition cyclic_convert (family : R -> rgb R) : ColourMap R :=
  mkCM (fun x => family (frac_part x)).

(** A caller that wraps the value into [0, 1) itself before it converts. *)
Definition with_explicit_wrap (c : ColourMap R) : ColourMap R :=
  mkCM (fun x => convert c (frac_part x)).

End Exact.

(** ** The constructor and sample configurations *)

(** Modelled from the spec: [unicode::toUtf8 (unicode::pi)] of unicode.h
    (not among the sources).  Label texts are UTF-8 and may hold multi-byte
    symbols; the Greek small letter pi, U+03C0, is the two bytes 0xCF
    0x80. *)
Definition utf8_pi : string :=
  String "207"%char (String "128"%char EmptyString).

Section Constructor.

Context {F : Type} `{FloatOps F}.

(** [mplot::colour::black]. *)
Definition black : rgb F := (fzero, fzero, fzero).

Definition empty_mesh : Mesh F := mkMesh [] [] [] [] 0.

(** The in-class member initialisers and the constructor
    [CyclicColourVisual (_offset)], for a colour map copied in by the
    client.  The constructor clears the in-class labels [pi/2], [pi],
    [3pi/2], [0] and writes the four labels with the Greek letter in their
    place. *)
Definition CyclicColourVisual (colourmap : ColourMap F) (_offset : vec F)
  : Visual F :=
  {| cm := colourmap;
     show_perception_sine := true;
     outer_radius := of_int 1;
     inner_radius := fdiv (of_int 3) (of_int 10);
     z := fzero;
     framecolour := black;
     draw_frame := false;
     framelinewidth := fdiv (of_int 1) (of_int 100);
     labels := [ (utf8_pi ++ "/2")%string; utf8_pi;
                 ("3" ++ utf8_pi ++ "/2")%string; "0"%string ];
     label_angles := [];
     tf := mkTF (fdiv (of_int 15) (of_int 100)) 36 black;
     draw_ticks := true;
     ticklabelgap := fdiv (of_int 5) (of_int 100);
     numsegs := 128;
     numrings := 64;
     ticklabelheight := fzero;
     ticklabelwidth := fzero;
     mv_offset := _offset;
     ux := mkvec (of_int 1) fzero fzero;
     uy := mkvec fzero (of_int 1) fzero;
     uz := mkvec fzero fzero (of_int 1);
     texts := [];
     mesh := empty_mesh |}.

Definition set_counts (rings segs : Z) (v : Visual F) : Visual F :=
  mkVisual (cm v) (show_perception_sine v) (outer_radius v) (inner_radius v)
           (z v) (framecolour v) (draw_frame v) (framelinewidth v) (labels v)
           (label_angles v) (tf v) (draw_ticks v) (ticklabelgap v)
           segs rings (ticklabelheight v) (ticklabelwidth v)
           (mv_offset v) (ux v) (uy v) (uz v) (texts v) (mesh v).

Definition set_cm (c : ColourMap F) (v : Visual F) : Visual F :=
  mkVisual c (show_perception_sine v) (outer_radius v) (inner_radius v)
           (z v) (framecolour v) (draw_frame v) (framelinewidth v) (labels v)
           (label_angles v) (tf v) (draw_ticks v) (ticklabelgap v)
           (numsegs v) (numrings v) (ticklabelheight v) (ticklabelwidth v)
           (mv_offset v) (ux v) (uy v) (uz v) (texts v) (mesh v).

Definition set_labels (l : list string) (v : Visual F) : Visual F :=
  mkVisual (cm v) (show_perception_sine v) (outer_radius v) (inner_radius v)
           (z v) (framecolour v) (draw_frame v) (framelinewidth v) l
           (label_angles v) (tf v) (draw_ticks v) (ticklabelgap v)
           (numsegs v) (numrings v) (ticklabelheight v) (ticklabelwidth v)
           (mv_offset v) (ux v) (uy v) (uz v) (texts v) (mesh v).

Definition set_flags (sine frame ticks : bool) (v : Visual F) : Visual F :=
  mkVisual (cm v) sine (outer_radius v) (inner_radius v)
           (z v) (framecolour v) frame (framelinewidth v) (labels v)
           (label_angles v) (tf v) ticks (ticklabelgap v)
           (numsegs v) (numrings v) (ticklabelheight v) (ticklabelwidth v)
           (mv_offset v) (ux v) (uy v) (uz v) (texts v) (mesh v).

End Constructor.

(** Configurations on which the statements below are exercised, in exact
    arithmetic unless they say otherwise. *)
Module Sample.

(** A grey ramp as the colour function of a cyclic family. *)
Definition grey (x : R) : rgb R := (x, x, x).

(** A text measurement with a fixed advance of 0.12 per character and a
    height of 0.15. *)
Definition measure (_ : TextFeatures R) (s : string) : TextGeometry R :=
  let w := (IZR (Z.of_nat (String.length s)) * (12 / 100))%R in
  mkGeom w (15 / 100)%R (w / 2)%R (15 / 200)%R.

(** A text measurement that reports an empty footprint. *)
Definition measure_nothing (_ : TextFeatures R) (_ : string) : TextGeometry R :=
  mkGeom 0%R 0%R 0%R 0%R.

(** A ribbon builder that appends a single vertex. *)
Definition ribbon (c n : vec R) (_ _ : R) (col : rgb R) (_ : Z) (m : Mesh R)
  : Mesh R :=
  set_idx (wrap_u (idx m + 1))
          (push_colour col (push_normal n (push_position c m))).

Definition visual : Visual R :=
  @CyclicColourVisual R Exact.ops (Exact.cyclic_convert grey)
                      (mkvec 0%R 0%R 0%R).

(** Three rings of five segments. *)
Definition small : Visual R := @set_counts R 3 5 visual.

(** A ring count whose conversion to [int] is negative. *)
Definition wide_rings : Visual R := @set_counts R (2 ^ 31) 1 visual.

(** A segment count whose conversion to [int] is negative. *)
Definition wide_segments : Visual R := @set_counts R 1 (2 ^ 31) visual.

(** A colour function that has the documented midpoint of the Jet family
    and is black elsewhere, in exact arithmetic and in single precision. *)
Definition jet_mid_only (x : R) : rgb R :=
  if Exact.eqb x (1 / 2)%R then @mid_jet R Exact.ops else @black R Exact.ops.

Definition jet_mid_only_f (x : Binary32.float32) : rgb Binary32.float32 :=
  if SFeqb x (@f_half _ (Binary32.ops (fun y => y) (fun y => y)))
  then @mid_jet _ (Binary32.ops (fun y => y) (fun y => y))
  else @black _ (Binary32.ops (fun y => y) (fun y => y)).

(** No labels and no angles. *)
Definition no_labels : Visual R := @set_labels R [] visual.

(** Labels switched off. *)
Definition no_ticks : Visual R := @set_flags R true false false visual.

(** Single precision, with the identity in the place of the C library's
    sine and cosine. *)
Definition ops_f : FloatOps Binary32.float32 :=
  Binary32.ops (fun y => y) (fun y => y).

(** A colour function that shows the value it is handed in every
    channel. *)
Definition grey_f (x : Binary32.float32) : rgb Binary32.float32 := (x, x, x).

(** One ring of the default 128 segments in single precision, with the
    overlay switched off. *)
Definition single_ring_f : Visual Binary32.float32 :=
  @set_flags _ false false true
    (@set_counts _ 1 128
       (@CyclicColourVisual _ ops_f (mkCM grey_f)
          (mkvec (S754_zero false) (S754_zero false) (S754_zero false)))).

End Sample.

(** ** Closed forms of the fill pass *)

Section ClosedForms.

Context {F : Type} `{FloatOps F}.

Definition ring_positions (v : Visual F) (ring : Z) : list (vec F) :=
  flat_map (fun j => [ring_point v (r_in v ring) j; ring_point v (r_out v ring) j])
           (segment_range v).

Definition ring_normals (v : Visual F) : list (vec F) :=
  flat_map (fun _ : Z => [uz v; uz v]) (segment_range v).

Definition ring_colours (v : Visual F) (ring : Z) : list (rgb F) :=
  flat_map (fun j => [col_in v ring j; col_out v ring j]) (segment_range v).

(** The six index entries of segment [j], as the code computes them from
    the offset [base]. *)
Definition segment_indices (nsegs base j : Z) : list Z :=
  let jn := next_segment nsegs j in
  [ wrap_u (base + wrap_u (wrap_s (2 * j)));
    wrap_u (base + wrap_u (wrap_s (2 * jn)));
    wrap_u (base + wrap_u (wrap_s (wrap_s (2 * jn) + 1)));
    wrap_u (base + wrap_u (wrap_s (2 * j)));
    wrap_u (base + wrap_u (wrap_s (wrap_s (2 * jn) + 1)));
    wrap_u (base + wrap_u (wrap_s (wrap_s (2 * j) + 1))) ].

Definition ring_indices (v : Visual F) (base : Z) : list Z :=
  flat_map (segment_indices (numsegs v) base) (segment_range v).

(** The offset after a ring: [idx += 2 * numsegs]. *)
Definition next_base (v : Visual F) (base : Z) : Z :=
  wrap_u (base + wrap_u (2 * numsegs v)).

(** The index entries of [k] consecutive rings from the offset [base]. *)
Fixpoint rings_indices (v : Visual F) (k : nat) (base : Z) : list Z :=
  match k with
  | O => []
  | S k' => ring_indices v base ++ rings_indices v k' (next_base v base)
  end.

(** The two triangles of segment [j] without any wrap-around. *)
Definition quad (nsegs base j : Z) : list Z :=
  let jn := (j + 1) mod nsegs in
  [ base + 2 * j; base + 2 * jn; base + 2 * jn + 1;
    base + 2 * j; base + 2 * jn + 1; base + 2 * j + 1 ].

(** The rings the pass builds and the segments of each. *)
Definition rings_built (v : Visual F) : nat := List.length (ring_range v).
Definition segments_built (v : Visual F) : nat := List.length (segment_range v).

End ClosedForms.

(** The appended triangles of [R] rings of [S] segments from the offset
    [base], in the order of emission: ring position 0 is the first ring the
    pass builds. *)
Definition quads_of_rings (S base : Z) (R : nat) : list Z :=
  flat_map (fun r => flat_map (quad S (base + 2 * S * r)) (count_up S))
           (count_up (Z.of_nat R)).

(** ** The ring boundaries and the colour fraction in the words of the
    specification *)

Section SpecWords.

Context {F : Type} `{FloatOps F}.

(** The specification's ring width, [(outer_radius - inner_radius) /
    ring_count], and its boundary radius
    [inner_radius + ring_width * ring_index]. *)
Definition spec_ring_width (v : Visual F) : F :=
  fdiv (fsub (outer_radius v) (inner_radius v)) (of_int (numrings v)).

Definition spec_boundary_radius (v : Visual F) (k : Z) : F :=
  fadd (inner_radius v) (fmul (spec_ring_width v) (of_int k)).

(** The two vertices of segment [j] of a ring between two radii. *)
Definition spec_segment_points (v : Visual F) (rad_in rad_out : F) (j : Z)
  : list (vec F) :=
  [ring_point v rad_in j; ring_point v rad_out j].

End SpecWords.

(** The colour of a vertex in the words of the specification, in exact
    arithmetic: the base fraction [j / segment_count], the colour angle over
    one full turn, and the perturbation of amplitude
    [0.1 * (normalised radial position)^2] and frequency [20 pi] in the
    colour angle. *)
Module SpecColour.

Definition fraction (segs j : Z) : R := (IZR j / IZR segs)%R.

Definition angle (segs j : Z) : R := (fraction segs j * (2 * PI))%R.

Definition norm_radius (v : Visual R) (r : R) : R :=
  ((r - inner_radius v) / (outer_radius v - inner_radius v))%R.

Definition perturbation (enabled : bool) (norm_r a : R) : R :=
  if enabled then (1 / 10 * (norm_r * norm_r) * sin (20 * PI * a))%R else 0%R.

Definition vertex_colour (v : Visual R) (r : R) (j : Z) : rgb R :=
  convert (cm v)
          (fraction (numsegs v) j +
           perturbation (show_perception_sine v) (norm_radius v r)
                        (angle (numsegs v) j))%R.

End SpecColour.

(** The colour of a vertex with the base fraction in the order the fill
    pass evaluates it, in any arithmetic: [j / segment_count] is multiplied
    by [2 pi] to give the colour angle, and the colour angle is divided by
    [2 pi] again.  The normalised radial position and the perturbation read
    as in [SpecColour]. *)
Module CodeColour.

Section Arithmetic.

Context {F : Type} `{FloatOps F}.

Definition angle (segs j : Z) : F :=
  fmul (fdiv (of_int j) (of_int segs)) two_pi.

Definition fraction (segs j : Z) : F :=
  fdiv (fmul (fdiv (of_int j) (of_int segs)) two_pi) two_pi.

Definition norm_radius (v : Visual F) (r : F) : F :=
  fdiv (fsub r (inner_radius v)) (fsub (outer_radius v) (inner_radius v)).

Definition perturbation (enabled : bool) (norm_r a : F) : F :=
  if enabled
  then fmul (fmul (fmul (fdiv (of_int 1) (of_int 10)) norm_r) norm_r)
            (fsin (fmul (fmul (of_int 20) pi) a))
  else fzero.

Definition vertex_colour (v : Visual F) (r : F) (j : Z) : rgb F :=
  convert (cm v)
          (fadd (fraction (numsegs v) j)
                (perturbation (show_perception_sine v) (norm_radius v r)
                              (angle (numsegs v) j))).

End Arithmetic.

End CodeColour.

(** The placement of a label in the words of the specification, in exact
    arithmetic: the clearance [|cos(angle) * half_width| + |sin(angle) *
    half_height|], the placement radius [outer_radius + frame_width + gap +
    clearance] and the anchor [(radius * cos(angle) - half_width, radius *
    sin(angle) - half_height, z)]. *)
Module SpecLabel.

Definition clearance (a : R) (g : TextGeometry R) : R :=
  (Rabs (cos a * half_width g) + Rabs (sin a * half_height g))%R.

Definition frame_edge (v : Visual R) : R :=
  (outer_radius v + framelinewidth v + ticklabelgap v)%R.

Definition radius (v : Visual R) (a : R) (g : TextGeometry R) : R :=
  (frame_edge v + clearance a g)%R.

Definition anchor (v : Visual R) (a : R) (g : TextGeometry R) : vec R :=
  mkvec (radius v a g * cos a - half_width g)%R
        (radius v a g * sin a - half_height g)%R
        (z v).

(** The text object handed to the scene: the anchor translated by the
    offset of the model. *)
Definition text (measure : TextFeatures R -> string -> TextGeometry R)
           (v : Visual R) (a : R) (s : string) : VisualTextModel R :=
  let p := anchor v a (measure (tf v) s) in
  mkText s (mkvec (vx p + vx (mv_offset v))%R
                  (vy p + vy (mv_offset v))%R
                  (vz p + vz (mv_offset v))%R)
         (colour (tf v)).

End SpecLabel.

(** ** Reading the emitted triangles *)

(** The outer edge of each quad: the index list holds six entries per
    segment, [a; b; c; a; c; d], where [d] is the outer vertex of the
    segment and [c] the outer vertex of its successor; the outer boundary
    edge of the second triangle runs from [d] to [c]. *)
Fixpoint outer_edges (l : list Z) : list (Z * Z) :=
  match l with
  | _ :: _ :: _ :: _ :: c :: d :: rest => (d, c) :: outer_edges rest
  | _ => []
  end.

(** The vertex that follows [x] on the outer boundary. *)
Definition next_outer (edges : list (Z * Z)) (x : Z) : option Z :=
  match find (fun e => fst e =? x) edges with
  | Some e => Some (snd e)
  | None => None
  end.

(** [n] steps along the outer boundary from [x]. *)
Fixpoint trace_outer (edges : list (Z * Z)) (n : nat) (x : Z) : option Z :=
  match n with
  | O => Some x
  | S k =>
      match next_outer edges x with
      | Some y => trace_outer edges k y
      | None => None
      end
  end.

(** A mesh is well formed when the three vertex sequences have one length
    and every index refers to a vertex within it. *)
Definition mesh_wf {F : Type} (m : Mesh F) : Prop :=
  List.length (vertexNormals m) = List.length (vertexPositions m) /\
  List.length (vertexColors m) = List.length (vertexPositions m) /\
  Forall (fun i => 0 <= i < Z.of_nat (List.length (vertexPositions m))) (indices m).

(** ** The colour setters *)

Section Setters.

Context {F : Type} `{FloatOps F}.

(** [this->tf.colour = c]. *)
Definition setTextColour (c : rgb F) (v : Visual F) : Visual F :=
  mkVisual (cm v) (show_perception_sine v) (outer_radius v) (inner_radius v)
           (z v) (framecolour v) (draw_frame v) (framelinewidth v) (labels v)
           (label_angles v) (mkTF (fontsize (tf v)) (fontres (tf v)) c)
           (draw_ticks v) (ticklabelgap v)
           (numsegs v) (numrings v) (ticklabelheight v) (ticklabelwidth v)
           (mv_offset v) (ux v) (uy v) (uz v) (texts v) (mesh v).

(** [this->framecolour = c]. *)
Definition setFrameColour (c : rgb F) (v : Visual F) : Visual F :=
  mkVisual (cm v) (show_perception_sine v) (outer_radius v) (inner_radius v)
           (z v) c (draw_frame v) (framelinewidth v) (labels v)
           (label_angles v) (tf v) (draw_ticks v) (ticklabelgap v)
           (numsegs v) (numrings v) (ticklabelheight v) (ticklabelwidth v)
           (mv_offset v) (ux v) (uy v) (uz v) (texts v) (mesh v).

(** [setColour]: both assignments, the text colour first. *)
Definition setColour (c : rgb F) (v : Visual F) : Visual F :=
  setFrameColour c (setTextColour c v).

End Setters.

(** ** The running maxima of the label loop *)

Section RunningMaxima.

Context {F : Type} `{FloatOps F}.

(** Lines 93 and 94 over the labels [ss], from the value [acc]: the
    measured dimension [dim] replaces the member when it is greater. *)
Definition running_max (dim : TextGeometry F -> F)
           (measure : TextFeatures F -> string -> TextGeometry F)
           (features : TextFeatures F) (acc : F) (ss : list string) : F :=
  fold_left (fun acc s =>
               if fgtb (dim (measure features s)) acc
               then dim (measure features s) else acc)
            ss acc.

End RunningMaxima.

(** ** Triangles of an index list *)

(** The index list read three entries at a time. *)
Fixpoint triangles (l : list Z) : list (Z * Z * Z) :=
  match l with
  | a :: b :: c :: rest => (a, b, c) :: triangles rest
  | _ => []
  end.

Definition distinct_corners (t : Z * Z * Z) : Prop :=
  let '(a, b, c) := t in a <> b /\ b <> c /\ a <> c.

(** ** The example programs *)

Section ExampleFunctions.

Context {F : Type} `{FloatOps F}.

(** [a <= b]. *)
Definition fleb (a b : F) : bool := fltb a b || feqb a b.

(** [banana] of examples/rosenbrock_asa.cpp, the Rosenbrock function.
    [None] stands for the undefined behaviour of [xy[0]] or [xy[1]] on a
    vector with fewer than two elements. *)
Definition banana (xy : list F) : option F :=
  let a := of_int 1 in
  let b := of_int 100 in
  match nth_error xy 0, nth_error xy 1 with
  | Some x, Some y =>
      Some (fadd (fmul (fsub a x) (fsub a x))
                 (fmul (fmul b (fsub y (fmul x x))) (fsub y (fmul x x))))
  | _, _ => None
  end.

(** [objective_boha], the Bohachevsky function; [three_pi] and [four_pi]
    are the constants of [sm::mathconst<F>] it reads. *)
Definition objective_boha (three_pi four_pi : F) (params : list F) : option F :=
  match nth_error params 0, nth_error params 1 with
  | Some x, Some y =>
      let a := of_int 1 in
      let b := of_int 2 in
      let c := fdiv (of_int 3) (of_int 10) in
      let d := fdiv (of_int 4) (of_int 10) in
      let alpha := three_pi in
      let gamma := four_pi in
      Some (fadd (fadd (fsub (fsub (fadd (fmul (fmul a x) x) (fmul (fmul b y) y))
                                   (fmul c (fcos (fmul alpha x))))
                             (fmul d (fcos (fmul gamma y))))
                       c)
                 d)
  | _, _ => None
  end.

(** [myvisual::key_callback_extra] of examples/voronoi_fixed_nearlyz.cpp on
    the member [border_width].  The key and action codes of the library
    ([mplot::key::up], [mplot::key::down], [mplot::keyaction::press]) and
    [std::numeric_limits<float>::epsilon()] are parameters. *)
Definition key_callback_extra (key_up key_down press : Z) (epsilon : F)
           (key action : Z) (border_width : F) : F :=
  let border_width :=
    if (key =? key_up) && (action =? press)
    then fadd border_width (fdiv (of_int 1) (of_int 100))
    else border_width in
  if (key =? key_down) && (action =? press)
  then
    let border_width := fsub border_width (fdiv (of_int 1) (of_int 100)) in
    if fleb border_width fzero then epsilon else border_width
  else border_width.

(** The member after a sequence of key events, each a key and an action. *)
Definition key_events (key_up key_down press : Z) (epsilon : F)
           (events : list (Z * Z)) (border_width : F) : F :=
  fold_left (fun bw e => key_callback_extra key_up key_down press epsilon
                                            (fst e) (snd e) bw)
            events border_width.

End ExampleFunctions.

(** * Properties *)

(** ** Machine integers *)

Module Int32Facts.

Lemma wrap_u_small (x : Z) : 0 <= x < modulus -> wrap_u x = x.
Proof. intros Hx. unfold wrap_u. now apply Z.mod_small. Qed.

Lemma wrap_s_small (x : Z) :
  - half_modulus <= x < half_modulus -> wrap_s x = x.
Proof.
  intros Hx. unfold wrap_s, modulus, half_modulus in *.
  rewrite Z.mod_small; lia.
Qed.

Lemma wrap_s_range (x : Z) : - half_modulus <= wrap_s x < half_modulus.
Proof.
  unfold wrap_s, modulus, half_modulus.
  pose proof (Z.mod_pos_bound (x + 2 ^ 31) (2 ^ 32)). lia.
Qed.

End Int32Facts.

Import Int32Facts.

(** ** Loop ranges *)

Lemma count_up_length (n : Z) : List.length (count_up n) = Z.to_nat n.
Proof. unfold count_up. now rewrite length_map, length_seq. Qed.

Lemma count_down_length (n : Z) : List.length (count_down n) = Z.to_nat n.
Proof. unfold count_down. now rewrite length_rev, length_map, length_seq. Qed.

Lemma count_up_In (n j : Z) : In j (count_up n) <-> 0 <= j < n.
Proof.
  unfold count_up. rewrite in_map_iff. split.
  - intros [k [<- Hk]]. apply in_seq in Hk. lia.
  - intros Hj. exists (Z.to_nat j). split; [lia|]. apply in_seq. lia.
Qed.

Lemma count_down_In (n r : Z) : In r (count_down n) <-> 1 <= r <= n.
Proof.
  unfold count_down. rewrite <- in_rev, in_map_iff. split.
  - intros [k [<- Hk]]. apply in_seq in Hk. lia.
  - intros Hr. exists (Z.to_nat r). split; [lia|]. apply in_seq. lia.
Qed.

(** The outer loop visits [n, n-1, ..., 1]. *)
Lemma count_down_succ (n : nat) :
  count_down (Z.of_nat (S n)) = Z.of_nat (S n) :: count_down (Z.of_nat n).
Proof.
  unfold count_down. rewrite !Nat2Z.id.
  rewrite seq_S, map_app, rev_app_distr. reflexivity.
Qed.

(** ** The fill pass in closed form *)

Section FillFacts.

Context {F : Type} `{FloatOps F}.

Lemma fold_segment_vertices (v : Visual F) (ring : Z) (l : list Z) :
  forall m : Mesh F,
    fold_left (push_segment_vertices v ring) l m =
    mkMesh
      (vertexPositions m ++
         flat_map (fun j => [ring_point v (r_in v ring) j;
                             ring_point v (r_out v ring) j]) l)
      (vertexNormals m ++ flat_map (fun _ : Z => [uz v; uz v]) l)
      (vertexColors m ++ flat_map (fun j => [col_in v ring j; col_out v ring j]) l)
      (indices m) (idx m).
Proof.
  induction l as [|j l IH]; intros m; cbn [fold_left flat_map].
  - rewrite !app_nil_r. now destruct m.
  - rewrite IH. unfold push_segment_vertices, push_position, push_normal,
      push_colour, vertex_push. cbn.
    rewrite <- !app_assoc. reflexivity.
Qed.

Lemma fold_segment_indices (v : Visual F) (l : list Z) :
  forall m : Mesh F,
    fold_left (push_segment_indices v) l m =
    mkMesh (vertexPositions m) (vertexNormals m) (vertexColors m)
           (indices m ++ flat_map (segment_indices (numsegs v) (idx m)) l)
           (idx m).
Proof.
  induction l as [|j l IH]; intros m; cbn [fold_left flat_map].
  - rewrite app_nil_r. now destruct m.
  - rewrite IH. unfold push_segment_indices, push_index, idx_plus,
      segment_indices. cbn.
    rewrite <- !app_assoc. reflexivity.
Qed.

Lemma fill_ring_closed (v : Visual F) (m : Mesh F) (ring : Z) :
  fill_ring v m ring =
  mkMesh (vertexPositions m ++ ring_positions v ring)
         (vertexNormals m ++ ring_normals v)
         (vertexColors m ++ ring_colours v ring)
         (indices m ++ ring_indices v (idx m))
         (next_base v (idx m)).
Proof.
  unfold fill_ring. rewrite fold_segment_vertices, fold_segment_indices.
  reflexivity.
Qed.

Lemma fold_fill_ring (v : Visual F) (rings : list Z) :
  forall m : Mesh F,
    fold_left (fill_ring v) rings m =
    mkMesh (vertexPositions m ++ flat_map (ring_positions v) rings)
           (vertexNormals m ++ flat_map (fun _ : Z => ring_normals v) rings)
           (vertexColors m ++ flat_map (ring_colours v) rings)
           (indices m ++ rings_indices v (List.length rings) (idx m))
           (Nat.iter (List.length rings) (next_base v) (idx m)).
Proof.
  induction rings as [|r rings IH]; intros m.
  - cbn. rewrite !app_nil_r. now destruct m.
  - cbn [fold_left]. rewrite IH, fill_ring_closed.
    cbn [vertexPositions vertexNormals vertexColors indices idx
           flat_map List.length rings_indices].
    rewrite <- !app_assoc. f_equal.
    rewrite Nat.iter_succ_r. reflexivity.
Qed.

Lemma fill_mesh_closed (v : Visual F) (m : Mesh F) :
  fill_mesh v m =
  mkMesh (vertexPositions m ++ flat_map (ring_positions v) (ring_range v))
         (vertexNormals m ++ flat_map (fun _ : Z => ring_normals v) (ring_range v))
         (vertexColors m ++ flat_map (ring_colours v) (ring_range v))
         (indices m ++ rings_indices v (rings_built v) (idx m))
         (Nat.iter (rings_built v) (next_base v) (idx m)).
Proof. apply fold_fill_ring. Qed.

End FillFacts.

(** ** Counting what the fill pass appends *)

Lemma flat_map_length_const {A B : Type} (f : A -> list B) (c : nat) (l : list A) :
  (forall x, List.length (f x) = c) ->
  List.length (flat_map f l) = (c * List.length l)%nat.
Proof.
  intros Hf. induction l as [|x l IH]; cbn [flat_map List.length].
  - lia.
  - rewrite length_app, Hf, IH. lia.
Qed.

Section FillCounts.

Context {F : Type} `{FloatOps F}.

Lemma ring_indices_length (v : Visual F) (base : Z) :
  List.length (ring_indices v base) = (6 * segments_built v)%nat.
Proof. apply flat_map_length_const. reflexivity. Qed.

Lemma rings_indices_length (v : Visual F) (k : nat) :
  forall base,
    List.length (rings_indices v k base) = (6 * (k * segments_built v))%nat.
Proof.
  induction k as [|k IH]; intros base; cbn [rings_indices].
  - reflexivity.
  - rewrite length_app, ring_indices_length, IH. lia.
Qed.

(** The counts in terms of the iterations the two loops perform. *)
Lemma fill_mesh_counts (v : Visual F) (m : Mesh F) :
  let m' := fill_mesh v m in
  let n := (2 * (rings_built v * segments_built v))%nat in
  List.length (vertexPositions m') = (List.length (vertexPositions m) + n)%nat /\
  List.length (vertexNormals m') = (List.length (vertexNormals m) + n)%nat /\
  List.length (vertexColors m') = (List.length (vertexColors m) + n)%nat /\
  List.length (indices m') = (List.length (indices m) + 3 * n)%nat.
Proof.
  cbv zeta. rewrite fill_mesh_closed.
  cbn [vertexPositions vertexNormals vertexColors indices].
  rewrite !length_app, rings_indices_length.
  rewrite (flat_map_length_const _ (2 * segments_built v)),
          (flat_map_length_const _ (2 * segments_built v)),
          (flat_map_length_const _ (2 * segments_built v)).
  - fold (rings_built v). lia.
  - intros r. unfold ring_colours. now apply flat_map_length_const.
  - intros r. unfold ring_normals. now apply flat_map_length_const.
  - intros r. unfold ring_positions. now apply flat_map_length_const.
Qed.

Lemma rings_built_small (v : Visual F) :
  0 <= numrings v < half_modulus -> Z.of_nat (rings_built v) = numrings v.
Proof.
  intros Hr. unfold rings_built, ring_range.
  rewrite count_down_length, wrap_s_small; unfold half_modulus in *; lia.
Qed.

Lemma segments_built_small (v : Visual F) :
  0 <= numsegs v < half_modulus -> Z.of_nat (segments_built v) = numsegs v.
Proof.
  intros Hs. unfold segments_built, segment_range.
  rewrite count_up_length, wrap_s_small; unfold half_modulus in *; lia.
Qed.

End FillCounts.

(** C1 (as amended): when the ring count and the segment count are below
    2^31, so that both convert to the [int] loop counters unchanged, the fill
    pass appends exactly 2 * ring_count * segment_count entries to each of
    the position, normal and colour sequences, and 6 * ring_count *
    segment_count index entries, that is 2 * ring_count * segment_count
    triangles. *)
Theorem fill_appends_2RS_vertices_and_triangles
    {F : Type} `{FloatOps F} (v : Visual F) :
  0 <= numrings v < 2 ^ 31 ->
  0 <= numsegs v < 2 ^ 31 ->
  let m := mesh v in
  let m' := mesh (fillFrameWithColour v) in
  let n := 2 * numrings v * numsegs v in
  Z.of_nat (List.length (vertexPositions m')) =
    Z.of_nat (List.length (vertexPositions m)) + n /\
  Z.of_nat (List.length (vertexNormals m')) =
    Z.of_nat (List.length (vertexNormals m)) + n /\
  Z.of_nat (List.length (vertexColors m')) =
    Z.of_nat (List.length (vertexColors m)) + n /\
  Z.of_nat (List.length (indices m')) =
    Z.of_nat (List.length (indices m)) + 3 * n.
Proof.
  intros Hr Hs. cbv zeta. unfold fillFrameWithColour. cbn [mesh set_mesh].
  destruct (fill_mesh_counts v (mesh v)) as (Hp & Hn & Hc & Hi).
  pose proof (rings_built_small v Hr) as HR.
  pose proof (segments_built_small v Hs) as HS.
  rewrite Hp, Hn, Hc, Hi. nia.
Qed.

(** The amended C1 on three rings of five segments: thirty vertices. *)
Lemma fill_appends_2RS_witness :
  (0 <= 3 < 2 ^ 31) /\ (0 <= 5 < 2 ^ 31) /\
  Z.of_nat (List.length
              (vertexPositions (mesh (@fillFrameWithColour R Exact.ops Sample.small)))) =
    Z.of_nat (List.length (vertexPositions (mesh Sample.small))) + 2 * 3 * 5.
Proof.
  split; [lia|]. split; [lia|].
  apply (@fill_appends_2RS_vertices_and_triangles R Exact.ops Sample.small);
    cbn; lia.
Defined.

(** C1 as stated fails for a ring count of 2^31: its conversion to the
    [int] loop counter is negative, no ring is built, and no vertex is
    appended, where the claim asks for 2 * 2^31 * 1 of them. *)
Lemma fill_count_counterexample_wide_rings :
  let v := Sample.wide_rings in
  List.length (vertexPositions (mesh (@fillFrameWithColour R Exact.ops v))) = 0%nat /\
  Z.of_nat (List.length (vertexPositions (mesh (@fillFrameWithColour R Exact.ops v))))
    <> Z.of_nat (List.length (vertexPositions (mesh v)))
       + 2 * numrings v * numsegs v.
Proof.
  cbv zeta.
  assert (E : List.length
                (vertexPositions (mesh (@fillFrameWithColour R Exact.ops Sample.wide_rings)))
              = 0%nat) by reflexivity.
  split; [exact E|]. rewrite E. cbn. lia.
Qed.

(** ** The triangles of the fill pass *)

Lemma flat_map_ext_In {A B : Type} (f g : A -> list B) (l : list A) :
  (forall x, In x l -> f x = g x) -> flat_map f l = flat_map g l.
Proof.
  intros Hfg. induction l as [|x l IH]; cbn [flat_map]; [reflexivity|].
  rewrite Hfg by now left. rewrite IH; [reflexivity|].
  intros y Hy. apply Hfg. now right.
Qed.

Lemma flat_map_map_arg {A B C : Type} (g : A -> B) (f : B -> list C) (l : list A) :
  flat_map f (map g l) = flat_map (fun x => f (g x)) l.
Proof.
  induction l as [|x l IH]; cbn [map flat_map]; [reflexivity|].
  now rewrite IH.
Qed.

Lemma count_up_succ (k : nat) :
  count_up (Z.of_nat (S k)) = 0 :: map Z.succ (count_up (Z.of_nat k)).
Proof.
  unfold count_up. rewrite !Nat2Z.id. cbn [seq map].
  f_equal. rewrite <- seq_shift, !map_map.
  apply map_ext. intros a. lia.
Qed.

Section NoOverflow.

(** The index arithmetic when nothing wraps: the segment count is at most
    2^30, so that [2*jn+1] fits an [int], and the offsets stay below
    2^32. *)

Variable S : Z.
Hypothesis S_pos : 0 < S.
Hypothesis S_small : S <= 2 ^ 30.

Lemma next_segment_mod (j : Z) :
  0 <= j < S -> next_segment S j = (j + 1) mod S.
Proof.
  intros Hj. unfold next_segment.
  pose proof (Z.mod_pos_bound (j + 1) S S_pos) as Hm.
  rewrite (wrap_s_small (j + 1)) by (unfold half_modulus; lia).
  rewrite (wrap_u_small (j + 1)) by (unfold modulus; lia).
  rewrite (wrap_u_small (S + (j + 1) mod S)) by (unfold modulus; lia).
  replace (S + (j + 1) mod S) with ((j + 1) mod S + 1 * S) by lia.
  rewrite Z.mod_add, Z.mod_mod by lia.
  apply wrap_s_small. unfold half_modulus. lia.
Qed.

Lemma idx_plus_exact (base e : Z) :
  0 <= base -> 0 <= e < 2 * S -> base + 2 * S <= modulus ->
  wrap_u (base + wrap_u e) = base + e.
Proof.
  intros Hb He Hbs. unfold modulus in *.
  rewrite (wrap_u_small e) by (unfold modulus; lia).
  apply wrap_u_small. unfold modulus. lia.
Qed.

Lemma segment_indices_quad (base j : Z) :
  0 <= base -> base + 2 * S <= modulus -> 0 <= j < S ->
  segment_indices S base j = quad S base j.
Proof.
  intros Hb Hbs Hj. unfold segment_indices, quad. cbv zeta.
  rewrite next_segment_mod by assumption.
  pose proof (Z.mod_pos_bound (j + 1) S S_pos) as Hm.
  set (jn := (j + 1) mod S) in *.
  rewrite (wrap_s_small (2 * j)) by (unfold half_modulus; lia).
  rewrite (wrap_s_small (2 * jn)) by (unfold half_modulus; lia).
  rewrite (wrap_s_small (2 * j + 1)) by (unfold half_modulus; lia).
  rewrite (wrap_s_small (2 * jn + 1)) by (unfold half_modulus; lia).
  rewrite (idx_plus_exact base (2 * j)) by lia.
  rewrite (idx_plus_exact base (2 * jn)) by lia.
  rewrite (idx_plus_exact base (2 * j + 1)) by lia.
  rewrite (idx_plus_exact base (2 * jn + 1)) by lia.
  rewrite !Z.add_assoc. reflexivity.
Qed.

End NoOverflow.

Section FillTriangles.

Context {F : Type} `{FloatOps F}.

Variable v : Visual F.
Hypothesis segs_lo : 0 < numsegs v.
Hypothesis segs_hi : numsegs v <= 2 ^ 30.

Lemma segment_range_exact : segment_range v = count_up (numsegs v).
Proof.
  unfold segment_range. rewrite wrap_s_small; [reflexivity|].
  unfold half_modulus. lia.
Qed.

Lemma ring_indices_quads (base : Z) :
  0 <= base -> base + 2 * numsegs v <= modulus ->
  ring_indices v base = flat_map (quad (numsegs v) base) (count_up (numsegs v)).
Proof.
  intros Hb Hbs. unfold ring_indices. rewrite segment_range_exact.
  apply flat_map_ext_In. intros j Hj. apply count_up_In in Hj.
  now apply segment_indices_quad.
Qed.

Lemma next_base_exact (base : Z) :
  0 <= base -> base + 2 * numsegs v < modulus ->
  next_base v base = base + 2 * numsegs v.
Proof.
  intros Hb Hbs. unfold next_base, modulus in *.
  rewrite (wrap_u_small (2 * numsegs v)) by (unfold modulus; lia).
  apply wrap_u_small. unfold modulus. lia.
Qed.

Lemma rings_indices_quads (k : nat) :
  forall base,
    0 <= base -> base + 2 * numsegs v * Z.of_nat k < modulus ->
    rings_indices v k base = quads_of_rings (numsegs v) base k.
Proof.
  unfold quads_of_rings.
  induction k as [|k IH]; intros base Hb Hbs; [reflexivity|].
  cbn [rings_indices]. rewrite count_up_succ. cbn [flat_map].
  rewrite ring_indices_quads by (unfold modulus in *; nia).
  rewrite next_base_exact by (unfold modulus in *; nia).
  rewrite IH by (unfold modulus in *; nia).
  replace (base + 2 * numsegs v * 0) with base by lia.
  f_equal. rewrite flat_map_map_arg.
  apply flat_map_ext_In. intros r _.
  f_equal. f_equal. lia.
Qed.

(** One ring keeps the mesh well formed and the offset equal to the
    vertex count. *)
Lemma fill_ring_wf (m : Mesh F) (ring : Z) :
  mesh_wf m ->
  idx m = Z.of_nat (List.length (vertexPositions m)) ->
  idx m + 2 * numsegs v < modulus ->
  let m' := fill_ring v m ring in
  mesh_wf m' /\
  idx m' = Z.of_nat (List.length (vertexPositions m')) /\
  idx m' = idx m + 2 * numsegs v.
Proof.
  intros (Hn & Hc & Hi) Hidx Hb. cbv zeta. rewrite fill_ring_closed.
  assert (Hlen : forall (A : Type) (f : Z -> A * A),
             Z.of_nat (List.length
                         (flat_map (fun j => [fst (f j); snd (f j)]) (segment_range v)))
             = 2 * numsegs v).
  { intros A f. rewrite (flat_map_length_const _ 2) by reflexivity.
    rewrite segment_range_exact, count_up_length. lia. }
  assert (Hpos : Z.of_nat (List.length (ring_positions v ring)) = 2 * numsegs v).
  { apply (Hlen _ (fun j => (ring_point v (r_in v ring) j,
                             ring_point v (r_out v ring) j))). }
  assert (Hnor : Z.of_nat (List.length (ring_normals v)) = 2 * numsegs v).
  { apply (Hlen _ (fun _ => (uz v, uz v))). }
  assert (Hcol : Z.of_nat (List.length (ring_colours v ring)) = 2 * numsegs v).
  { apply (Hlen _ (fun j => (col_in v ring j, col_out v ring j))). }
  unfold mesh_wf.
  cbn [vertexPositions vertexNormals vertexColors indices idx].
  rewrite !length_app.
  assert (Hidx0 : 0 <= idx m) by lia.
  repeat split; try lia.
  - apply Forall_app. split.
    + eapply Forall_impl; [|exact Hi]. cbn beta. intros i Hi'. lia.
    + rewrite ring_indices_quads by lia.
      apply Forall_forall. intros i Hin.
      apply in_flat_map in Hin. destruct Hin as (j & Hj & Hin).
      apply count_up_In in Hj.
      pose proof (Z.mod_pos_bound (j + 1) (numsegs v) segs_lo) as Hm.
      unfold quad in Hin. cbv zeta in Hin. cbn [In] in Hin.
      rewrite Nat2Z.inj_add.
      destruct Hin as [<-|[<-|[<-|[<-|[<-|[<-|[]]]]]]]; lia.
  - rewrite next_base_exact by lia. lia.
  - now apply next_base_exact.
Qed.

(** Any number of rings keeps the invariant, as long as the offset stays
    below 2^32. *)
Lemma fill_rings_wf (rings : list Z) :
  forall m : Mesh F,
    mesh_wf m ->
    idx m = Z.of_nat (List.length (vertexPositions m)) ->
    idx m + 2 * numsegs v * Z.of_nat (List.length rings) < modulus ->
    let m' := fold_left (fill_ring v) rings m in
    mesh_wf m' /\
    idx m' = Z.of_nat (List.length (vertexPositions m')).
Proof.
  induction rings as [|r rings IH]; intros m Hwf Hidx Hb; cbv zeta.
  - now split.
  - cbn [fold_left]. cbn [List.length] in Hb.
    assert (Hb1 : idx m + 2 * numsegs v < modulus) by nia.
    destruct (fill_ring_wf m r Hwf Hidx Hb1) as (Hwf' & Hidx' & Hnext).
    apply IH; try assumption. rewrite Hnext. nia.
Qed.

End FillTriangles.

(** ** The outer boundary of a ring *)

(** The outer edge of segment [j]: from its outer vertex to the outer
    vertex of the next segment. *)
Lemma outer_edges_quad (S base j : Z) (rest : list Z) :
  outer_edges (quad S base j ++ rest) =
  (base + 2 * j + 1, base + 2 * ((j + 1) mod S) + 1) :: outer_edges rest.
Proof. reflexivity. Qed.

Lemma outer_edges_ring (S base : Z) (js rest : list Z) :
  outer_edges (flat_map (quad S base) js ++ rest) =
  map (fun j => (base + 2 * j + 1, base + 2 * ((j + 1) mod S) + 1)) js
      ++ outer_edges rest.
Proof.
  induction js as [|j js IH]; [reflexivity|].
  cbn [flat_map map]. rewrite <- !app_assoc, outer_edges_quad, IH. reflexivity.
Qed.

Lemma outer_edges_rings (S : Z) (g : Z -> Z) (js rs : list Z) :
  outer_edges (flat_map (fun r => flat_map (quad S (g r)) js) rs) =
  flat_map (fun r => map (fun j => (g r + 2 * j + 1,
                                    g r + 2 * ((j + 1) mod S) + 1)) js) rs.
Proof.
  induction rs as [|r rs IH]; [reflexivity|].
  cbn [flat_map]. rewrite outer_edges_ring, IH. reflexivity.
Qed.

(** When every edge leaving [x] leads to [y], the successor of [x] is [y]. *)
Lemma next_outer_functional (edges : list (Z * Z)) (x y : Z) :
  In (x, y) edges ->
  (forall y', In (x, y') edges -> y' = y) ->
  next_outer edges x = Some y.
Proof.
  intros Hin Hfun. unfold next_outer.
  destruct (find (fun e => fst e =? x) edges) as [[x' y']|] eqn:E.
  - apply find_some in E. destruct E as [Hin' Hx]. cbn in Hx.
    apply Z.eqb_eq in Hx. subst x'. cbn. f_equal. now apply Hfun.
  - exfalso. pose proof (find_none _ _ E _ Hin) as Hx. cbn in Hx.
    rewrite Z.eqb_refl in Hx. discriminate.
Qed.

Section OuterLoop.

Variables (S base : Z) (R : nat).
Hypothesis S_pos : 0 < S.

Let edges := outer_edges (quads_of_rings S base R).

Lemma In_edges (x y : Z) :
  In (x, y) edges <->
  exists r j, 0 <= r < Z.of_nat R /\ 0 <= j < S /\
              x = base + 2 * S * r + 2 * j + 1 /\
              y = base + 2 * S * r + 2 * ((j + 1) mod S) + 1.
Proof.
  unfold edges, quads_of_rings.
  rewrite (outer_edges_rings S (fun r => base + 2 * S * r)).
  rewrite in_flat_map. split.
  - intros (r & Hr & Hin). apply in_map_iff in Hin.
    destruct Hin as (j & Heq & Hj). inversion Heq; subst.
    apply count_up_In in Hr. apply count_up_In in Hj.
    exists r, j. repeat split; lia.
  - intros (r & j & Hr & Hj & -> & ->).
    exists r. split; [now apply count_up_In|].
    apply in_map_iff. exists j. split; [reflexivity|now apply count_up_In].
Qed.

Lemma next_outer_step (r j : Z) :
  0 <= r < Z.of_nat R -> 0 <= j < S ->
  next_outer edges (base + 2 * S * r + 2 * j + 1) =
  Some (base + 2 * S * r + 2 * ((j + 1) mod S) + 1).
Proof.
  intros Hr Hj. apply next_outer_functional.
  - apply In_edges. exists r, j. repeat split; lia.
  - intros y' Hy'. apply In_edges in Hy'.
    destruct Hy' as (r' & j' & Hr' & Hj' & Hx & ->).
    assert (r' = r) by nia. subst r'.
    assert (j' = j) by lia. subst j'. reflexivity.
Qed.

Lemma trace_outer_steps (r : Z) (k : nat) :
  0 <= r < Z.of_nat R ->
  forall j, 0 <= j < S ->
    trace_outer edges k (base + 2 * S * r + 2 * j + 1) =
    Some (base + 2 * S * r + 2 * ((j + Z.of_nat k) mod S) + 1).
Proof.
  intros Hr. induction k as [|k IH]; intros j Hj.
  - cbn [trace_outer]. rewrite Z.add_0_r, Z.mod_small by lia. reflexivity.
  - cbn [trace_outer]. rewrite next_outer_step by assumption.
    rewrite IH by (apply Z.mod_pos_bound; lia).
    rewrite Zplus_mod_idemp_l, Nat2Z.inj_succ.
    replace (j + Z.succ (Z.of_nat k)) with (j + 1 + Z.of_nat k) by lia.
    reflexivity.
Qed.

(** The outer loop of every ring closes after exactly [S] steps. *)
Lemma outer_loop_closes (r : Z) :
  0 <= r < Z.of_nat R ->
  let start := base + 2 * S * r + 1 in
  trace_outer edges (Z.to_nat S) start = Some start /\
  forall k, (0 < k < Z.to_nat S)%nat -> trace_outer edges k start <> Some start.
Proof.
  intros Hr. cbv zeta.
  replace (base + 2 * S * r + 1) with (base + 2 * S * r + 2 * 0 + 1) by lia.
  split.
  - rewrite trace_outer_steps by lia.
    rewrite Z2Nat.id by lia. rewrite Z.add_0_l, Z.mod_same by lia. reflexivity.
  - intros k Hk. rewrite trace_outer_steps by lia.
    rewrite Z.add_0_l, Z.mod_small by lia.
    intros E. assert (E' := f_equal (fun o => match o with Some a => a | None => 0 end) E).
    cbv beta iota in E'. lia.
Qed.

End OuterLoop.

(** C2 (as amended): for a segment count between 3 and 2^30 and a ring
    count below 2^31, starting from a well-formed mesh whose offset [idx]
    equals its vertex count and stays below 2^32, so that no [int] or
    [unsigned int] computation overflows: the index entries the pass
    appends are, ring after ring and segment after segment, the two
    triangles (base+2j, base+2jn, base+2jn+1), (base+2j, base+2jn+1,
    base+2j+1) with jn = (j+1) mod segment_count and a base that advances by
    2 * segment_count per ring; after every ring the three vertex sequences
    have one length, every index emitted so far refers to a vertex already
    appended and the offset equals the vertex count; and the outer boundary
    of each ring returns to its starting vertex after exactly segment_count
    steps and not before. *)
Theorem fill_triangles_form_closed_rings
    {F : Type} `{FloatOps F} (v : Visual F) :
  3 <= numsegs v <= 2 ^ 30 ->
  0 <= numrings v < 2 ^ 31 ->
  mesh_wf (mesh v) ->
  idx (mesh v) = Z.of_nat (List.length (vertexPositions (mesh v))) ->
  idx (mesh v) + 2 * numsegs v * numrings v < 2 ^ 32 ->
  let S := numsegs v in
  let base := idx (mesh v) in
  let m' := mesh (fillFrameWithColour v) in
  let appended := quads_of_rings S base (Z.to_nat (numrings v)) in
  indices m' = indices (mesh v) ++ appended /\
  idx m' = base + 2 * S * numrings v /\
  (forall k : nat,
      let mk := fold_left (fill_ring v) (firstn k (ring_range v)) (mesh v) in
      mesh_wf mk /\ idx mk = Z.of_nat (List.length (vertexPositions mk))) /\
  mesh_wf m' /\
  (forall r, 0 <= r < numrings v ->
     let start := base + 2 * S * r + 1 in
     trace_outer (outer_edges appended) (Z.to_nat S) start = Some start /\
     forall k, (0 < k < Z.to_nat S)%nat ->
       trace_outer (outer_edges appended) k start <> Some start).
Proof.
  intros Hs Hr Hwf Hidx Hb. cbv zeta.
  assert (Hs0 : 0 < numsegs v) by lia.
  assert (Hs1 : numsegs v <= 2 ^ 30) by lia.
  pose proof (rings_built_small v Hr) as HR.
  assert (Hbase : 0 <= idx (mesh v)) by lia.
  assert (Hprefix : forall rings : list Z,
             (List.length rings <= rings_built v)%nat ->
             let mk := fold_left (fill_ring v) rings (mesh v) in
             mesh_wf mk /\ idx mk = Z.of_nat (List.length (vertexPositions mk))).
  { intros rings Hlen. apply (fill_rings_wf v Hs0 Hs1 rings (mesh v) Hwf Hidx).
    unfold modulus. nia. }
  unfold fillFrameWithColour. cbn [mesh set_mesh].
  destruct (Hprefix (ring_range v) (Nat.le_refl _)) as (Hwf' & Hidx').
  split; [|split; [|split; [|split]]].
  - rewrite fill_mesh_closed. cbn [indices]. f_equal.
    replace (Z.to_nat (numrings v)) with (rings_built v) by lia.
    apply rings_indices_quads; try assumption. unfold modulus. nia.
  - unfold fill_mesh. rewrite Hidx'.
    destruct (fill_mesh_counts v (mesh v)) as (Hp & _). unfold fill_mesh in Hp.
    rewrite Hp, Hidx.
    pose proof (segments_built_small v) as HS.
    rewrite Nat2Z.inj_add, Nat2Z.inj_mul, Nat2Z.inj_mul, HR, HS; unfold half_modulus; lia.
  - intros k. apply Hprefix. rewrite length_firstn. unfold rings_built. lia.
  - exact Hwf'.
  - intros r Hr'. apply outer_loop_closes; lia.
Qed.

(** The amended C2 on three rings of five segments from the empty mesh. *)
Lemma fill_triangles_witness :
  indices (mesh (@fillFrameWithColour R Exact.ops Sample.small)) =
    indices (mesh Sample.small) ++ quads_of_rings 5 0 3 /\
  trace_outer (outer_edges (quads_of_rings 5 0 3)) 5 (0 + 2 * 5 * 2 + 1)
    = Some (0 + 2 * 5 * 2 + 1).
Proof.
  assert (Hwf : @mesh_wf R (mesh Sample.small)).
  { repeat split. constructor. }
  destruct (@fill_triangles_form_closed_rings R Exact.ops Sample.small)
    as (Hi & _ & _ & _ & Hloop);
    [cbn; lia | cbn; lia | exact Hwf | reflexivity | cbn; lia |].
  split; [exact Hi|].
  apply (Hloop 2). cbn. lia.
Defined.

(** C2 as stated fails for a segment count of 2^31, which is at least 3:
    its conversion to the [int] loop bound is negative, so the one ring of
    the sample emits no triangle at all, in particular not the first index
    base + 2 * 0 of segment 0. *)
Lemma fill_triangles_counterexample_wide_segments :
  let v := Sample.wide_segments in
  let m' := mesh (@fillFrameWithColour R Exact.ops v) in
  3 <= numsegs v /\ numrings v = 1 /\
  indices m' = [] /\
  ~ In (idx (mesh v) + 2 * 0) (indices m').
Proof.
  cbv zeta.
  assert (E : indices (mesh (@fillFrameWithColour R Exact.ops Sample.wide_segments)) = [])
    by reflexivity.
  rewrite E. repeat split.
  - cbn. lia.
  - intros [].
Qed.

(** ** Ring boundaries *)

Lemma count_down_as_map (n : Z) :
  count_down n = map (fun k => n - k) (count_up n).
Proof.
  destruct (Z_lt_le_dec n 0) as [Hn|Hn].
  - destruct n as [|p|p]; try lia. reflexivity.
  - rewrite <- (Z2Nat.id n Hn). generalize (Z.to_nat n). clear n Hn.
    intros n. induction n as [|n IH]; [reflexivity|].
    rewrite count_down_succ, count_up_succ, IH. cbn [map].
    f_equal; try lia. rewrite map_map. apply map_ext. intros k. lia.
Qed.

(** The ring counter stays within [1, 2^31 - 1], so [ring - 1] does not
    wrap. *)
Lemma ring_range_pred {F : Type} `{FloatOps F} (v : Visual F) (ring : Z) :
  In ring (ring_range v) -> wrap_s (ring - 1) = ring - 1.
Proof.
  intros Hin. apply count_down_In in Hin.
  pose proof (wrap_s_range (numrings v)) as Hw. unfold half_modulus in Hw.
  apply wrap_s_small. unfold half_modulus. lia.
Qed.

(** C6: the fill pass visits the rings n, n-1, ..., 1 for n the ring count
    as converted to the [int] counter, outermost first; the positions it
    appends are, for each ring and each segment, the point at the inner
    boundary inner_radius + ring_width * (ring - 1) and the point at the
    outer boundary inner_radius + ring_width * ring, with ring_width =
    (outer_radius - inner_radius) / ring_count. *)
Theorem fill_rings_linearly_spaced {F : Type} `{FloatOps F} (v : Visual F) :
  let n := wrap_s (numrings v) in
  ring_range v = map (fun k => n - k) (count_up n) /\
  (forall ring, In ring (ring_range v) <-> 1 <= ring <= n) /\
  (forall ring,
      r_out v ring = spec_boundary_radius v ring /\
      (In ring (ring_range v) -> r_in v ring = spec_boundary_radius v (ring - 1))) /\
  vertexPositions (mesh (fillFrameWithColour v)) =
    vertexPositions (mesh v) ++
    flat_map (fun ring =>
                flat_map (spec_segment_points v
                            (spec_boundary_radius v (ring - 1))
                            (spec_boundary_radius v ring))
                         (segment_range v))
             (ring_range v).
Proof.
  cbv zeta. split; [|split; [|split]].
  - apply count_down_as_map.
  - intros ring. apply count_down_In.
  - intros ring. split; [reflexivity|].
    intros Hin. unfold r_in. now rewrite (ring_range_pred v ring Hin).
  - unfold fillFrameWithColour. cbn [mesh set_mesh].
    rewrite fill_mesh_closed. cbn [vertexPositions]. f_equal.
    apply flat_map_ext_In. intros ring Hin.
    unfold ring_positions, r_in. now rewrite (ring_range_pred v ring Hin).
Qed.

(** ** Vertex colours *)

(** With the overlay disabled the two vertices of a segment get one colour,
    in every arithmetic. *)
Lemma overlay_off_same_colour {F : Type} `{FloatOps F} (v : Visual F) (ring j : Z) :
  show_perception_sine v = false -> col_in v ring j = col_out v ring j.
Proof.
  intros Hoff. unfold col_in, col_out, decaying_sine. now rewrite Hoff.
Qed.

Section ExactColours.

#[local] Existing Instance Exact.ops.

Variable v : Visual R.

Lemma colour_fraction_exact (j : Z) :
  colour_fraction v j = SpecColour.fraction (numsegs v) j.
Proof.
  unfold colour_fraction, colour_angle, SpecColour.fraction. cbn.
  generalize (IZR j / IZR (numsegs v))%R. intros x.
  unfold Rdiv. rewrite Rmult_assoc, Rinv_r, Rmult_1_r; [reflexivity|].
  pose proof PI_RGT_0. lra.
Qed.

Lemma colour_angle_exact (j : Z) :
  colour_angle v j = SpecColour.angle (numsegs v) j.
Proof. reflexivity. Qed.

Lemma decaying_sine_exact (norm_r : R) (j : Z) :
  decaying_sine v norm_r j =
  SpecColour.perturbation (show_perception_sine v) norm_r
                          (SpecColour.angle (numsegs v) j).
Proof.
  unfold decaying_sine, SpecColour.perturbation.
  destruct (show_perception_sine v); [|reflexivity].
  rewrite colour_angle_exact. cbn. unfold f_tenth, f_twenty. cbn. ring.
Qed.

Lemma col_out_exact (ring j : Z) :
  col_out v ring j =
  SpecColour.vertex_colour v (spec_boundary_radius v ring) j.
Proof.
  unfold col_out, SpecColour.vertex_colour.
  rewrite colour_fraction_exact, decaying_sine_exact. reflexivity.
Qed.

Lemma col_in_exact (ring j : Z) :
  In ring (ring_range v) ->
  col_in v ring j =
  SpecColour.vertex_colour v (spec_boundary_radius v (ring - 1)) j.
Proof.
  intros Hin. unfold col_in, SpecColour.vertex_colour.
  rewrite colour_fraction_exact, decaying_sine_exact.
  unfold norm_r_in, r_in. rewrite (ring_range_pred v ring Hin). reflexivity.
Qed.

End ExactColours.

(** In every arithmetic the colours of a ring are those of [CodeColour] at
    the ring's two boundary radii. *)
Lemma col_out_code {F : Type} `{FloatOps F} (v : Visual F) (ring j : Z) :
  col_out v ring j = CodeColour.vertex_colour v (spec_boundary_radius v ring) j.
Proof. reflexivity. Qed.

Lemma col_in_code {F : Type} `{FloatOps F} (v : Visual F) (ring j : Z) :
  In ring (ring_range v) ->
  col_in v ring j
  = CodeColour.vertex_colour v (spec_boundary_radius v (ring - 1)) j.
Proof.
  intros Hin. unfold col_in, norm_r_in, r_in.
  rewrite (ring_range_pred v ring Hin). reflexivity.
Qed.

Lemma fill_colours_code {F : Type} `{FloatOps F} (v : Visual F) :
  vertexColors (mesh (fillFrameWithColour v)) =
  vertexColors (mesh v) ++
  flat_map (fun ring =>
              flat_map (fun j =>
                          [CodeColour.vertex_colour
                             v (spec_boundary_radius v (ring - 1)) j;
                           CodeColour.vertex_colour
                             v (spec_boundary_radius v ring) j])
                       (segment_range v))
           (ring_range v).
Proof.
  unfold fillFrameWithColour. cbn [mesh set_mesh].
  rewrite fill_mesh_closed. cbn [vertexColors]. f_equal.
  apply flat_map_ext_In. intros ring Hin. unfold ring_colours.
  apply flat_map_ext_In. intros j _.
  now rewrite col_out_code, (col_in_code v ring j Hin).
Qed.

(** In exact arithmetic the colour the code computes is the colour of the
    specification. *)
Lemma code_colour_exact (v : Visual R) (r : R) (j : Z) :
  @CodeColour.vertex_colour R Exact.ops v r j = SpecColour.vertex_colour v r j.
Proof.
  unfold CodeColour.vertex_colour, SpecColour.vertex_colour.
  change (@CodeColour.fraction R Exact.ops (numsegs v) j)
    with (@colour_fraction R Exact.ops v j).
  rewrite colour_fraction_exact. f_equal. cbn [fadd Exact.ops]. f_equal.
  unfold CodeColour.perturbation, SpecColour.perturbation.
  destruct (show_perception_sine v); [|reflexivity].
  unfold CodeColour.norm_radius, SpecColour.norm_radius, CodeColour.angle,
    SpecColour.angle, SpecColour.fraction.
  cbn. ring.
Qed.

(** C5 (as amended): in every arithmetic, and so in the single precision
    of the code, the colours the fill pass appends are, for every ring and
    every segment j, the conversion of the base fraction plus the
    perturbation at the ring's inner radius, then the conversion of the same
    base fraction plus the perturbation at its outer radius.  The base
    fraction is ((j / segment_count) * 2 pi) / (2 pi) as the arithmetic
    evaluates it, a function of the segment index alone; the perturbation is
    0.1 * norm_r * norm_r * sin (20 pi * colour_angle), with norm_r the
    normalised radial position of that radius, when the overlay is enabled
    and zero otherwise; with the overlay disabled the inner and the outer
    vertex of every segment receive the same colour.  In exact arithmetic
    the base fraction is j / segment_count and the colours are those of the
    specification. *)
Theorem fill_colours_computed_fraction_and_overlay :
  (forall (F : Type) (ops : FloatOps F) (v : Visual F),
      let m' := mesh (@fillFrameWithColour F ops v) in
      vertexColors m' =
        vertexColors (mesh v) ++
        flat_map (fun ring =>
                    flat_map (fun j =>
                                [@CodeColour.vertex_colour F ops
                                   v (@spec_boundary_radius F ops v (ring - 1)) j;
                                 @CodeColour.vertex_colour F ops
                                   v (@spec_boundary_radius F ops v ring) j])
                             (segment_range v))
                 (ring_range v) /\
      (show_perception_sine v = false ->
       (forall r j,
           @CodeColour.vertex_colour F ops v r j
           = convert (cm v)
                     (@fadd F ops (@CodeColour.fraction F ops (numsegs v) j)
                                  (@fzero F ops))) /\
       vertexColors m' =
         vertexColors (mesh v) ++
         flat_map (fun _ : Z =>
                     flat_map (fun j =>
                                 let c :=
                                   convert (cm v)
                                           (@fadd F ops
                                              (@CodeColour.fraction F ops (numsegs v) j)
                                              (@fzero F ops)) in
                                 [c; c])
                              (segment_range v))
                  (ring_range v))) /\
  (forall (v : Visual R) (j : Z),
      @CodeColour.fraction R Exact.ops (numsegs v) j
      = SpecColour.fraction (numsegs v) j /\
      @CodeColour.angle R Exact.ops (numsegs v) j
      = SpecColour.angle (numsegs v) j /\
      forall r,
        @CodeColour.vertex_colour R Exact.ops v r j
        = SpecColour.vertex_colour v r j).
Proof.
  split.
  - intros F ops v. cbv zeta.
    pose proof (@fill_colours_code F ops v) as Hclosed.
    split; [exact Hclosed|].
    intros Hoff.
    assert (Hsame : forall r j,
               @CodeColour.vertex_colour F ops v r j
               = convert (cm v)
                         (@fadd F ops (@CodeColour.fraction F ops (numsegs v) j)
                                      (@fzero F ops))).
    { intros r j. unfold CodeColour.vertex_colour, CodeColour.perturbation.
      now rewrite Hoff. }
    split; [exact Hsame|].
    rewrite Hclosed. f_equal.
    apply flat_map_ext_In. intros ring _.
    apply flat_map_ext_In. intros j _. now rewrite !Hsame.
  - intros v j. split; [|split].
    + exact (colour_fraction_exact v j).
    + reflexivity.
    + intros r. apply code_colour_exact.
Qed.

(** C5 as amended on one ring of 128 segments in single precision with the
    overlay switched off. *)
Lemma fill_colours_computed_witness :
  show_perception_sine Sample.single_ring_f = false /\
  forall r j,
    @CodeColour.vertex_colour _ Sample.ops_f Sample.single_ring_f r j
    = convert (cm Sample.single_ring_f)
              (@fadd _ Sample.ops_f
                     (@CodeColour.fraction _ Sample.ops_f
                                           (numsegs Sample.single_ring_f) j)
                     (@fzero _ Sample.ops_f)).
Proof.
  split; [reflexivity|].
  destruct (proj1 fill_colours_computed_fraction_and_overlay
                  _ Sample.ops_f Sample.single_ring_f) as [_ Hoff].
  apply Hoff. reflexivity.
Defined.

(** C5 as worded fails in single precision: on one ring of 128 segments
    with the overlay switched off, 11 / 128 is 11534336 * 2^-27, the colour
    angle of segment 11 is rounded to 9059047 * 2^-24, and its quotient by
    2 pi, the base fraction handed to the converter for both vertices of
    the segment (entries 22 and 23 of the colour buffer), is
    11534337 * 2^-27. *)
Lemma base_fraction_of_segment_11_is_not_11_over_128 :
  let v := Sample.single_ring_f in
  let m' := mesh (@fillFrameWithColour _ Sample.ops_f v) in
  let eleven_128ths :=
    @fdiv _ Sample.ops_f (@of_int _ Sample.ops_f 11)
                         (@of_int _ Sample.ops_f (numsegs v)) in
  numsegs v = 128 /\
  show_perception_sine v = false /\
  eleven_128ths = S754_finite false 11534336 (-27) /\
  @colour_angle _ Sample.ops_f v 11 = S754_finite false 9059047 (-24) /\
  @colour_fraction _ Sample.ops_f v 11 = S754_finite false 11534337 (-27) /\
  SFeqb (@colour_fraction _ Sample.ops_f v 11) eleven_128ths = false /\
  @colour_fraction _ Sample.ops_f v 11 <> eleven_128ths /\
  nth 22 (vertexColors m') (@black _ Sample.ops_f)
  = Sample.grey_f (S754_finite false 11534337 (-27)) /\
  nth 23 (vertexColors m') (@black _ Sample.ops_f)
  = Sample.grey_f (S754_finite false 11534337 (-27)) /\
  nth 23 (vertexColors m') (@black _ Sample.ops_f)
  <> convert (cm v) eleven_128ths.
Proof.
  cbv zeta.
  split; [reflexivity|]. split; [reflexivity|].
  split; [vm_compute; reflexivity|]. split; [vm_compute; reflexivity|].
  split; [vm_compute; reflexivity|]. split; [vm_compute; reflexivity|].
  split; [vm_compute; discriminate|].
  split; [vm_compute; reflexivity|]. split; [vm_compute; reflexivity|].
  vm_compute; discriminate.
Qed.

(** ** The tick labels *)

Lemma list_set_middle {A : Type} (l1 l2 : list A) (x y : A) :
  list_set (l1 ++ x :: l2) (List.length l1) y = l1 ++ y :: l2.
Proof. induction l1 as [|h l1 IH]; cbn; [reflexivity|now rewrite IH]. Qed.

Section AutoAngles.

Context {F : Type} `{FloatOps F}.

Lemma auto_angle_step_middle (n : nat) (done rest : list F) (x : F) :
  auto_angle_step n (done ++ x :: rest) (List.length done) =
  done ++ auto_angle n (List.length done) :: rest.
Proof.
  unfold auto_angle_step, auto_angle, rescale. cbv zeta.
  rewrite list_set_middle, nth_middle.
  rewrite list_set_middle, nth_middle.
  now rewrite list_set_middle.
Qed.

Lemma fold_auto_angle_step (n m : nat) :
  forall done : list F,
    fold_left (auto_angle_step n) (seq (List.length done) m)
              (done ++ repeat fzero m) =
    done ++ map (auto_angle n) (seq (List.length done) m).
Proof.
  induction m as [|m IH]; intros done; [reflexivity|].
  cbn [seq fold_left repeat map].
  rewrite auto_angle_step_middle.
  replace (done ++ auto_angle n (List.length done) :: repeat fzero m)
    with ((done ++ [auto_angle n (List.length done)]) ++ repeat fzero m)
    by now rewrite <- app_assoc.
  replace (Datatypes.S (List.length done))
    with (List.length (done ++ [auto_angle n (List.length done)]))
    by (rewrite length_app; cbn; lia).
  rewrite IH, <- app_assoc. reflexivity.
Qed.

(** The loop of lines 79 to 86 leaves [auto_angle n i] at every index. *)
Lemma auto_label_angles_closed (n : nat) :
  auto_label_angles n = map (auto_angle n) (seq 0 n).
Proof. apply (fold_auto_angle_step n n []). Qed.

Lemma auto_label_angles_length (n : nat) :
  List.length (auto_label_angles n) = n.
Proof. now rewrite auto_label_angles_closed, length_map, length_seq. Qed.

End AutoAngles.

Lemma nth_error_skipn {A : Type} (l : list A) (i : nat) (x : A) :
  nth_error l i = Some x -> skipn i l = x :: skipn (Datatypes.S i) l.
Proof.
  revert i. induction l as [|h l IH]; intros [|i] Hnth; try discriminate.
  - cbn in Hnth. now inversion Hnth.
  - cbn in Hnth. cbn [skipn]. now apply IH.
Qed.

Section PlaceLabels.

Context {F : Type} `{FloatOps F}.

Variable getTextGeometry : TextFeatures F -> string -> TextGeometry F.

(** The label loop returns, and writes nothing but the running maxima and
    the text objects, whenever every angle has a label. *)
Lemma place_labels_closed (angles : list F) :
  forall (i : nat) (v : Visual F),
    (i + List.length angles <= List.length (labels v))%nat ->
    exists h w,
      place_labels getTextGeometry i angles v =
      Some (set_label_state h w (texts v ++ placed getTextGeometry v i angles) v).
Proof.
  induction angles as [|a rest IH]; intros i v Hlen.
  - exists (ticklabelheight v), (ticklabelwidth v).
    unfold placed. cbn. rewrite app_nil_r. now destruct v.
  - cbn [List.length] in Hlen.
    destruct (nth_error (labels v) i) as [s|] eqn:Hs.
    2:{ apply nth_error_None in Hs. lia. }
    cbn [place_labels]. unfold place_label. rewrite Hs. cbv zeta.
    set (h1 := if fgtb (height (getTextGeometry (tf v) s)) (ticklabelheight v)
               then height (getTextGeometry (tf v) s) else ticklabelheight v).
    set (w1 := if fgtb (width (getTextGeometry (tf v) s)) (ticklabelwidth v)
               then width (getTextGeometry (tf v) s) else ticklabelwidth v).
    set (v1 := push_text _ _).
    destruct (IH (Datatypes.S i) v1) as (h & w & Hrest).
    { subst v1. cbn. lia. }
    exists h, w. rewrite Hrest. f_equal.
    unfold placed. rewrite (nth_error_skipn (labels v) i s Hs).
    subst v1. destruct v. cbn. rewrite <- app_assoc. reflexivity.
Qed.

Lemma fits_unsigned_true {A : Type} (l : list A) :
  Z.of_nat (List.length l) < modulus -> fits_unsigned l = true.
Proof. intros Hl. unfold fits_unsigned. now apply Z.ltb_lt. Qed.

Lemma drawTickLabels_closed (v : Visual F) :
  Z.of_nat (List.length (labels v)) < modulus ->
  (List.length (label_angles v) <= List.length (labels v))%nat ->
  exists h w,
    drawTickLabels getTextGeometry v =
    Some (set_label_state h w
            (texts v ++ placed getTextGeometry v 0 (working_angles v))
            (set_label_angles (working_angles v) v)).
Proof.
  intros Hfit Hlen. unfold drawTickLabels, working_angles. cbv zeta.
  destruct (label_angles v) as [|a angles] eqn:Ha.
  - replace (label_angles (set_ticklabelsize fzero fzero v)) with (@nil F)
      by (now rewrite <- Ha).
    replace (fits_unsigned (labels (set_ticklabelsize fzero fzero v))) with true
      by (symmetry; now apply fits_unsigned_true).
    set (v1 := set_label_angles _ _).
    destruct (place_labels_closed (label_angles v1) 0 v1) as (h & w & Hp).
    { subst v1. cbn [label_angles labels set_label_angles set_ticklabelsize Nat.add].
      now rewrite auto_label_angles_length. }
    exists h, w. rewrite Hp. subst v1. destruct v. reflexivity.
  - replace (label_angles (set_ticklabelsize fzero fzero v)) with (a :: angles)
      by (now rewrite <- Ha).
    replace (fits_unsigned (a :: angles)) with true
      by (symmetry; apply fits_unsigned_true; lia).
    destruct (place_labels_closed (a :: angles) 0 (set_ticklabelsize fzero fzero v))
      as (h & w & Hp).
    { cbn [labels set_ticklabelsize Nat.add]. lia. }
    exists h, w. rewrite Hp. destruct v. cbn in *. subst. reflexivity.
Qed.

End PlaceLabels.


(** C10: with no labels and no explicit angles the tick-label pass returns
    the visual with both maxima reset to zero and nothing else changed: no
    angle is generated, no text object is appended, and the loop whose body
    holds the division 2 pi / N runs zero times, so that the result is the
    same whatever the arithmetic operations are. *)
Theorem no_labels_no_angles_no_division
    {F : Type} {ops : FloatOps F}
    (getTextGeometry : TextFeatures F -> string -> TextGeometry F)
    (v : Visual F) :
  labels v = [] ->
  label_angles v = [] ->
  drawTickLabels getTextGeometry v = Some (set_ticklabelsize fzero fzero v) /\
  seq 0 (List.length (labels v)) = [] /\
  label_angles (set_ticklabelsize fzero fzero v) = [] /\
  texts (set_ticklabelsize fzero fzero v) = texts v /\
  ticklabelwidth (set_ticklabelsize fzero fzero v) = fzero /\
  ticklabelheight (set_ticklabelsize fzero fzero v) = fzero /\
  (forall ops' : FloatOps F,
      @fzero F ops' = @fzero F ops ->
      @drawTickLabels F ops' getTextGeometry v =
      @drawTickLabels F ops getTextGeometry v).
Proof.
  intros Hl Ha.
  assert (Hrun : forall ops' : FloatOps F,
             @drawTickLabels F ops' getTextGeometry v =
             Some (@set_ticklabelsize F (@fzero F ops') (@fzero F ops') v)).
  { intros ops'. unfold drawTickLabels. destruct v. cbn in *. subst. reflexivity. }
  split; [apply Hrun|].
  split; [now rewrite Hl|].
  split; [exact Ha|].
  split; [reflexivity|].
  split; [reflexivity|].
  split; [reflexivity|].
  intros ops' Hz. rewrite (Hrun ops'), (Hrun ops), Hz. reflexivity.
Qed.

(** C10 on the sample without labels. *)
Lemma no_labels_witness :
  labels Sample.no_labels = [] /\ label_angles Sample.no_labels = [] /\
  @drawTickLabels R Exact.ops Sample.measure Sample.no_labels =
    Some (@set_ticklabelsize R 0%R 0%R Sample.no_labels).
Proof.
  split; [reflexivity|]. split; [reflexivity|].
  apply (@no_labels_no_angles_no_division R Exact.ops Sample.measure Sample.no_labels);
    reflexivity.
Defined.

(** ** The generated angles *)

Section Binary32Angles.

Variables sinf cosf : Binary32.float32 -> Binary32.float32.

Lemma auto_angles_4_binary32 :
  @auto_label_angles _ (Binary32.ops sinf cosf) 4 =
  [Binary32.pi_over_2_f; Binary32.pi_f; Binary32.three_pi_over_2_f; Binary32.two_pi_f].
Proof. vm_compute. reflexivity. Qed.

End Binary32Angles.

(** C3, evaluated on the code: for the four default labels and no explicit
    angles, in single precision, the tick-label pass returns and leaves the
    angles pi/2, pi, 3 pi/2 and 2 pi; the last one is not 0 and does not lie
    below 2 pi, because line 85 reduces an angle only when it is strictly
    greater than 2 pi. *)
Theorem default_angles_end_at_two_pi
    (sinf cosf : Binary32.float32 -> Binary32.float32)
    (getTextGeometry :
       TextFeatures Binary32.float32 -> string -> TextGeometry Binary32.float32)
    (colourmap : ColourMap Binary32.float32) (offset : vec Binary32.float32) :
  exists v',
    @drawTickLabels _ (Binary32.ops sinf cosf) getTextGeometry
                    (@CyclicColourVisual _ (Binary32.ops sinf cosf) colourmap offset)
      = Some v' /\
    label_angles v' =
      [Binary32.pi_over_2_f; Binary32.pi_f; Binary32.three_pi_over_2_f; Binary32.two_pi_f] /\
    SFeqb Binary32.two_pi_f (S754_zero false) = false /\
    SFltb Binary32.two_pi_f Binary32.two_pi_f = false.
Proof.
  destruct (@drawTickLabels_closed _ (Binary32.ops sinf cosf) getTextGeometry
              (@CyclicColourVisual _ (Binary32.ops sinf cosf) colourmap offset))
    as (h & w & Hrun).
  - cbn. unfold modulus. lia.
  - cbn. lia.
  - eexists. split; [exact Hrun|].
    split; [|split; reflexivity].
    cbn [label_angles set_label_state set_label_angles].
    unfold working_angles. cbn [label_angles labels CyclicColourVisual List.length].
    apply auto_angles_4_binary32.
Qed.

(** The same in exact arithmetic: the fourth of four generated angles is
    2 pi, which line 85 leaves as it is. *)
Lemma default_last_angle_exact :
  @auto_angle R Exact.ops 4 3 = (2 * PI)%R.
Proof.
  unfold auto_angle, rescale, fgtb. cbn. unfold Exact.ltb.
  replace (PI / 2 + 3 * (2 * PI / 4))%R with (2 * PI)%R by field.
  pose proof PI_RGT_0 as Hpi.
  destruct (Rlt_dec (2 * PI) 0) as [Hneg|_]; [lra|].
  destruct (Rlt_dec (2 * PI) (2 * PI)) as [Hlt|_]; [lra|reflexivity].
Qed.

(** ** Label placement *)

Lemma clearance_nonneg (a : R) (g : TextGeometry R) :
  (0 <= SpecLabel.clearance a g)%R.
Proof.
  unfold SpecLabel.clearance.
  pose proof (Rabs_pos (cos a * half_width g)).
  pose proof (Rabs_pos (sin a * half_height g)). lra.
Qed.

Lemma clearance_pos (a : R) (g : TextGeometry R) :
  (0 < half_width g)%R -> (0 < half_height g)%R ->
  (0 < SpecLabel.clearance a g)%R.
Proof.
  intros Hw Hh. unfold SpecLabel.clearance.
  pose proof (Rabs_pos (cos a * half_width g)) as Hc.
  pose proof (Rabs_pos (sin a * half_height g)) as Hs.
  destruct (Req_dec (cos a) 0) as [Hcos|Hcos].
  - assert (Hsin : sin a <> 0%R).
    { intros Hsin. pose proof (sin2_cos2 a) as Hone.
      unfold Rsqr in Hone. rewrite Hcos, Hsin in Hone. lra. }
    assert (0 < Rabs (sin a * half_height g))%R.
    { apply Rabs_pos_lt. apply Rmult_integral_contrapositive_currified; lra. }
    lra.
  - assert (0 < Rabs (cos a * half_width g))%R.
    { apply Rabs_pos_lt. apply Rmult_integral_contrapositive_currified; lra. }
    lra.
Qed.

(** C4 (as amended): in exact arithmetic, when every angle has a label, the
    tick-label pass returns and appends one text object per angle, set up
    at the anchor (radius cos(angle) - half_width, radius sin(angle) -
    half_height, z) translated by the offset of the model, where radius =
    outer_radius + frame line width + tick-label gap + clearance and
    clearance = |cos(angle) half_width| + |sin(angle) half_height|; the
    radius is at least outer_radius + frame line width + gap for every
    angle, and exceeds it when the measured half-width and half-height are
    both positive. *)
Theorem labels_anchor_outside_frame
    (measure : TextFeatures R -> string -> TextGeometry R) (v : Visual R) :
  Z.of_nat (List.length (labels v)) < 2 ^ 32 ->
  (List.length (label_angles v) <= List.length (labels v))%nat ->
  exists v',
    @drawTickLabels R Exact.ops measure v = Some v' /\
    texts v' =
      texts v ++
      map (fun p => SpecLabel.text measure v (fst p) (snd p))
          (combine (label_angles v') (labels v)) /\
    forall (a : R) (g : TextGeometry R),
      SpecLabel.clearance a g
        = (Rabs (cos a * half_width g) + Rabs (sin a * half_height g))%R /\
      SpecLabel.radius v a g
        = (outer_radius v + framelinewidth v + ticklabelgap v
           + SpecLabel.clearance a g)%R /\
      (SpecLabel.radius v a g
         >= outer_radius v + framelinewidth v + ticklabelgap v)%R /\
      ((0 < half_width g)%R -> (0 < half_height g)%R ->
       (SpecLabel.radius v a g
          > outer_radius v + framelinewidth v + ticklabelgap v)%R).
Proof.
  intros Hfit Hlen.
  destruct (@drawTickLabels_closed R Exact.ops measure v Hfit Hlen)
    as (h & w & Hrun).
  eexists. split; [exact Hrun|]. split.
  - cbn [texts label_angles set_label_state set_label_angles].
    unfold placed. cbn [skipn]. f_equal.
  - intros a g. split; [reflexivity|]. split; [reflexivity|].
    unfold SpecLabel.radius, SpecLabel.frame_edge.
    pose proof (clearance_nonneg a g) as H0.
    split; [lra|].
    intros Hw Hh. pose proof (clearance_pos a g Hw Hh). lra.
Qed.

(** The amended C4 on the four default labels. *)
Lemma labels_anchor_witness :
  Z.of_nat (List.length (labels Sample.visual)) < 2 ^ 32 /\
  (List.length (label_angles Sample.visual)
   <= List.length (labels Sample.visual))%nat /\
  exists v',
    @drawTickLabels R Exact.ops Sample.measure Sample.visual = Some v' /\
    texts v' =
      texts Sample.visual ++
      map (fun p => SpecLabel.text Sample.measure Sample.visual (fst p) (snd p))
          (combine (label_angles v') (labels Sample.visual)).
Proof.
  assert (H1 : Z.of_nat (List.length (labels Sample.visual)) < 2 ^ 32)
    by (cbn; lia).
  assert (H2 : (List.length (label_angles Sample.visual)
                <= List.length (labels Sample.visual))%nat) by (cbn; lia).
  split; [exact H1|]. split; [exact H2|].
  destruct (labels_anchor_outside_frame Sample.measure Sample.visual H1 H2)
    as (v' & Hrun & Htexts & _).
  exists v'. split; assumption.
Defined.

(** C4 as stated fails for a label whose measured footprint is empty, such
    as an empty string: its clearance is zero at every angle, so the
    placement radius equals outer_radius + frame line width + gap and does
    not exceed it. *)
Lemma empty_label_sits_on_frame_edge :
  let v := Sample.visual in
  let g := Sample.measure_nothing (tf v) ""%string in
  @lbl_r R Exact.ops v (PI / 2)%R g
    = (outer_radius v + framelinewidth v + ticklabelgap v)%R /\
  ~ (@lbl_r R Exact.ops v (PI / 2)%R g
       > outer_radius v + framelinewidth v + ticklabelgap v)%R.
Proof.
  cbv zeta.
  assert (E : @lbl_r R Exact.ops Sample.visual (PI / 2)%R
                (Sample.measure_nothing (tf Sample.visual) ""%string)
              = (outer_radius Sample.visual + framelinewidth Sample.visual
                 + ticklabelgap Sample.visual)%R).
  { unfold lbl_r, geom_gap. cbn.
    rewrite !Rmult_0_r, Rabs_R0. ring. }
  split; [exact E|]. rewrite E. apply Rgt_irrefl.
Qed.

(** ** The entry point *)

Section Initialize.

Context {F : Type} {ops : FloatOps F}.

Variable computeFlatCircleLine :
  vec F -> vec F -> F -> F -> rgb F -> Z -> Mesh F -> Mesh F.
Variable getTextGeometry : TextFeatures F -> string -> TextGeometry F.

#[local] Abbreviation framed := (after_frame computeFlatCircleLine getTextGeometry).
#[local] Abbreviation gap_of := (em_gap getTextGeometry).

(** Whatever the label loop returns differs from its input in the running
    maxima and the text objects only. *)
Lemma place_labels_inv (angles : list F) :
  forall (i : nat) (v v' : Visual F),
    place_labels getTextGeometry i angles v = Some v' ->
    exists h w ts, v' = set_label_state h w ts v.
Proof.
  induction angles as [|a rest IH]; intros i v v' Hrun.
  - cbn in Hrun. inversion Hrun; subst.
    exists (ticklabelheight v'), (ticklabelwidth v'), (texts v').
    now destruct v'.
  - cbn [place_labels] in Hrun. unfold place_label in Hrun.
    destruct (nth_error (labels v) i) as [s|]; [|discriminate].
    cbv zeta in Hrun. apply IH in Hrun.
    destruct Hrun as (h & w & ts & ->).
    exists h, w, ts. now destruct v.
Qed.

Lemma drawTickLabels_inv (v v' : Visual F) :
  drawTickLabels getTextGeometry v = Some v' ->
  exists h w ts angles,
    v' = set_label_state h w ts (set_label_angles angles v).
Proof.
  unfold drawTickLabels. cbv zeta. intros Hrun.
  destruct (label_angles (set_ticklabelsize fzero fzero v)) as [|a angles] eqn:Ha.
  - destruct (fits_unsigned _); [|discriminate].
    apply place_labels_inv in Hrun. destruct Hrun as (h & w & ts & ->).
    exists h, w, ts, (auto_label_angles (List.length (labels v))).
    now destruct v.
  - destruct (fits_unsigned _); [|discriminate].
    apply place_labels_inv in Hrun. destruct Hrun as (h & w & ts & ->).
    exists h, w, ts, (a :: angles).
    destruct v. cbn in Ha. subst. reflexivity.
Qed.

Lemma initializeVertices_steps (v : Visual F) :
  initializeVertices computeFlatCircleLine getTextGeometry v =
  option_map fillFrameWithColour
             (if draw_ticks v
              then drawTickLabels getTextGeometry (framed v)
              else Some (framed v)).
Proof.
  unfold initializeVertices, after_frame, em_gap. cbv zeta.
  cbn [draw_frame set_ticklabelgap].
  replace (draw_ticks (if draw_frame v
                       then drawFrame computeFlatCircleLine
                              (set_ticklabelgap
                                 (fdiv (width (getTextGeometry (tf v) "m"%string)) f_two) v)
                       else set_ticklabelgap
                              (fdiv (width (getTextGeometry (tf v) "m"%string)) f_two) v))
    with (draw_ticks v) by (now destruct (draw_frame v)).
  destruct (draw_ticks v); [|reflexivity].
  now destruct (drawTickLabels _ _).
Qed.

Lemma after_frame_gap (v : Visual F) : ticklabelgap (framed v) = gap_of v.
Proof. unfold after_frame. now destruct (draw_frame v). Qed.

Lemma after_frame_texts (v : Visual F) : texts (framed v) = texts v.
Proof. unfold after_frame. now destruct (draw_frame v). Qed.

Lemma after_frame_mesh (v : Visual F) :
  mesh (framed v) =
  if draw_frame v
  then computeFlatCircleLine
         (mkvec fzero fzero (z v)) (uz v)
         (fadd (inner_radius v) (fdiv (framelinewidth v) f_two))
         (framelinewidth v) (framecolour v) (numsegs v)
         (computeFlatCircleLine
            (mkvec fzero fzero (z v)) (uz v)
            (fadd (outer_radius v) (fdiv (framelinewidth v) f_two))
            (framelinewidth v) (framecolour v) (numsegs v) (mesh v))
  else mesh v.
Proof. unfold after_frame. now destruct (draw_frame v). Qed.

Lemma fill_after_labels (v : Visual F) (h w : F)
      (ts : list (VisualTextModel F)) (angles : list F) (m : Mesh F) :
  fill_mesh (set_label_state h w ts (set_label_angles angles (framed v))) m
  = fill_mesh v m.
Proof. unfold after_frame. destruct v as []. cbn. now destruct draw_frame0. Qed.

Lemma fill_after_frame (v : Visual F) (m : Mesh F) :
  fill_mesh (framed v) m = fill_mesh v m.
Proof. unfold after_frame. destruct v as []. cbn. now destruct draw_frame0. Qed.

(** What every run of the entry point leaves behind. *)
Lemma initializeVertices_inv (v v' : Visual F) :
  initializeVertices computeFlatCircleLine getTextGeometry v = Some v' ->
  ticklabelgap v' = gap_of v /\
  mesh v' = fill_mesh v (mesh (framed v)) /\
  (draw_ticks v = false ->
     texts v' = texts v /\ label_angles v' = label_angles v) /\
  (draw_ticks v = true ->
     exists v3, drawTickLabels getTextGeometry (framed v) = Some v3 /\
                texts v' = texts v3 /\ label_angles v' = label_angles v3).
Proof.
  rewrite initializeVertices_steps. intros Hrun.
  destruct (draw_ticks v) eqn:Hticks.
  - destruct (drawTickLabels getTextGeometry (framed v)) as [v3|] eqn:H3;
      [|discriminate].
    cbn in Hrun. inversion Hrun; subst v'. clear Hrun.
    destruct (drawTickLabels_inv _ _ H3) as (h & w & ts & angles & ->).
    split; [|split; [|split]].
    + cbn. apply after_frame_gap.
    + unfold fillFrameWithColour. cbn [mesh set_mesh set_label_state set_label_angles].
      apply fill_after_labels.
    + discriminate.
    + intros _. eexists. split; [reflexivity|]. now split.
  - cbn in Hrun. inversion Hrun; subst v'. clear Hrun.
    split; [|split; [|split]].
    + cbn. apply after_frame_gap.
    + unfold fillFrameWithColour. cbn [mesh set_mesh]. apply fill_after_frame.
    + intros _. cbn. split; [apply after_frame_texts|].
      unfold after_frame. now destruct (draw_frame v).
    + discriminate.
Qed.

(** Without labels the entry point always returns. *)
Lemma initializeVertices_returns (v : Visual F) :
  draw_ticks v = false ->
  initializeVertices computeFlatCircleLine getTextGeometry v =
  Some (fillFrameWithColour (framed v)).
Proof. intros Hticks. now rewrite initializeVertices_steps, Hticks. Qed.

Lemma after_frame_labels (v : Visual F) :
  labels (framed v) = labels v /\ label_angles (framed v) = label_angles v.
Proof. unfold after_frame. now destruct (draw_frame v). Qed.

(** With labels switched on and a label for every angle the entry point
    returns, and the labels are placed on the visual that carries the
    measured gap. *)
Lemma initializeVertices_with_labels (v : Visual F) :
  draw_ticks v = true ->
  Z.of_nat (List.length (labels v)) < modulus ->
  (List.length (label_angles v) <= List.length (labels v))%nat ->
  exists h w,
    initializeVertices computeFlatCircleLine getTextGeometry v =
    Some (fillFrameWithColour
            (set_label_state h w
               (texts v ++ placed getTextGeometry (framed v) 0 (working_angles v))
               (set_label_angles (working_angles v) (framed v)))).
Proof.
  intros Hticks Hfit Hlen.
  destruct (after_frame_labels v) as [Hl Ha].
  destruct (drawTickLabels_closed getTextGeometry (framed v)) as (h & w & Hrun).
  - now rewrite Hl.
  - now rewrite Hl, Ha.
  - exists h, w. rewrite initializeVertices_steps, Hticks, Hrun. cbn [option_map].
    rewrite after_frame_texts. unfold working_angles. now rewrite Hl, Ha.
Qed.

End Initialize.

(** C9 (as amended): the entry point measures the reference glyph and sets
    the tick-label gap to half its width in every run, whether or not
    labels are drawn; then it builds the frame if and only if draw_frame is
    set; then it places the tick labels if and only if draw_ticks is set,
    with the gap just measured; and finally it always fills the disc, on top
    of the mesh the frame step left. *)
Theorem initialize_gap_frame_labels_fill
    {F : Type} {ops : FloatOps F}
    (computeFlatCircleLine :
       vec F -> vec F -> F -> F -> rgb F -> Z -> Mesh F -> Mesh F)
    (getTextGeometry : TextFeatures F -> string -> TextGeometry F)
    (v : Visual F) :
  let gap := fdiv (width (getTextGeometry (tf v) "m"%string)) f_two in
  let v2 := after_frame computeFlatCircleLine getTextGeometry v in
  initializeVertices computeFlatCircleLine getTextGeometry v =
    option_map fillFrameWithColour
               (if draw_ticks v then drawTickLabels getTextGeometry v2 else Some v2) /\
  ticklabelgap v2 = gap /\
  mesh v2 =
    (if draw_frame v
     then computeFlatCircleLine
            (mkvec fzero fzero (z v)) (uz v)
            (fadd (inner_radius v) (fdiv (framelinewidth v) f_two))
            (framelinewidth v) (framecolour v) (numsegs v)
            (computeFlatCircleLine
               (mkvec fzero fzero (z v)) (uz v)
               (fadd (outer_radius v) (fdiv (framelinewidth v) f_two))
               (framelinewidth v) (framecolour v) (numsegs v) (mesh v))
     else mesh v) /\
  (draw_ticks v = true ->
   Z.of_nat (List.length (labels v)) < 2 ^ 32 ->
   (List.length (label_angles v) <= List.length (labels v))%nat ->
   exists h w,
     initializeVertices computeFlatCircleLine getTextGeometry v =
     Some (fillFrameWithColour
             (set_label_state h w
                (texts v ++ placed getTextGeometry v2 0 (working_angles v))
                (set_label_angles (working_angles v) v2)))) /\
  (draw_ticks v = false ->
   initializeVertices computeFlatCircleLine getTextGeometry v =
     Some (fillFrameWithColour v2)) /\
  (forall v',
      initializeVertices computeFlatCircleLine getTextGeometry v = Some v' ->
      ticklabelgap v' = gap /\
      mesh v' = fill_mesh v (mesh v2) /\
      (draw_ticks v = false ->
         texts v' = texts v /\ label_angles v' = label_angles v) /\
      (draw_ticks v = true ->
         exists v3, drawTickLabels getTextGeometry v2 = Some v3 /\
                    texts v' = texts v3 /\ label_angles v' = label_angles v3)).
Proof.
  cbv zeta. split; [apply initializeVertices_steps|].
  split; [apply after_frame_gap|].
  split; [apply after_frame_mesh|].
  split; [apply initializeVertices_with_labels|].
  split; [apply initializeVertices_returns|].
  intros v'. apply initializeVertices_inv.
Qed.

(** The amended C9 on the sample with the labels switched off. *)
Lemma initialize_witness :
  draw_ticks Sample.no_ticks = false /\
  @initializeVertices R Exact.ops Sample.ribbon Sample.measure Sample.no_ticks =
    Some (@fillFrameWithColour R Exact.ops
            (@after_frame R Exact.ops Sample.ribbon Sample.measure Sample.no_ticks)).
Proof.
  split; [reflexivity|].
  apply (@initialize_gap_frame_labels_fill R Exact.ops Sample.ribbon Sample.measure
           Sample.no_ticks).
  reflexivity.
Defined.

(** C9 as stated fails when the client does not need labels: with
    draw_ticks unset the entry point still measures the glyph "m" (0.12
    wide in the sample) and overwrites the gap 0.05 by 0.06. *)
Lemma gap_is_set_without_labels :
  let v := Sample.no_ticks in
  draw_ticks v = false /\
  exists v',
    @initializeVertices R Exact.ops Sample.ribbon Sample.measure v = Some v' /\
    ticklabelgap v' = (6 / 100)%R /\
    ticklabelgap v = (5 / 100)%R /\
    ticklabelgap v' <> ticklabelgap v.
Proof.
  cbv zeta. split; [reflexivity|].
  eexists. split.
  - apply initializeVertices_returns. reflexivity.
  - assert (Hnew : ticklabelgap
                     (@fillFrameWithColour R Exact.ops
                        (@after_frame R Exact.ops Sample.ribbon Sample.measure
                                      Sample.no_ticks))
                   = (6 / 100)%R).
    { change (ticklabelgap
                (@after_frame R Exact.ops Sample.ribbon Sample.measure Sample.no_ticks)
              = (6 / 100)%R).
      rewrite after_frame_gap. unfold em_gap, Sample.measure, f_two. cbn. lra. }
    assert (Hold : ticklabelgap Sample.no_ticks = (5 / 100)%R) by (cbn; lra).
    split; [exact Hnew|]. split; [exact Hold|].
    rewrite Hnew, Hold. lra.
Qed.

(** ** The cyclic converter *)

Lemma frac_part_shift (x : R) (k : Z) :
  frac_part (x + IZR k)%R = frac_part x.
Proof.
  symmetry.
  apply (Int_part_frac_part_spec (x + IZR k)%R (Int_part x + k) (frac_part x)).
  - pose proof (base_fp x) as [H0 H1]. split; lra.
  - rewrite plus_IZR. rewrite (Rplus_Int_part_frac_part x) at 1. ring.
Qed.

Lemma frac_part_idempotent (x : R) : frac_part (frac_part x) = frac_part x.
Proof.
  symmetry.
  apply (Int_part_frac_part_spec (frac_part x) 0 (frac_part x)).
  - pose proof (base_fp x) as [H0 H1]. split; lra.
  - ring.
Qed.

(** The colours of the fill pass as arguments of [convert]: the fraction
    plus the perturbation, handed over as it is. *)
Lemma fill_colours_closed {F : Type} `{FloatOps F} (v : Visual F) :
  vertexColors (mesh (fillFrameWithColour v)) =
  vertexColors (mesh v) ++
  flat_map (fun ring =>
              flat_map (fun j =>
                          [convert (cm v)
                                   (fadd (colour_fraction v j)
                                         (decaying_sine v (norm_r_in v ring) j));
                           convert (cm v)
                                   (fadd (colour_fraction v j)
                                         (decaying_sine v (norm_r_out v ring) j))])
                       (segment_range v))
           (ring_range v).
Proof.
  unfold fillFrameWithColour. cbn [mesh set_mesh].
  rewrite fill_mesh_closed. reflexivity.
Qed.

(** C7: a cyclic converter, which takes its input modulo 1, returns for
    x + 1.0 what it returns for x, and likewise for every whole shift and
    for the value wrapped into [0, 1); the fill pass hands the fraction plus
    the sine perturbation to [convert] as it is, and with a cyclic converter
    it builds the colours it would build if the sum were wrapped first. *)
Theorem cyclic_convert_mod_one (family : R -> rgb R) :
  (forall x : R,
      convert (Exact.cyclic_convert family) (x + 1)%R
      = convert (Exact.cyclic_convert family) x) /\
  (forall (x : R) (k : Z),
      convert (Exact.cyclic_convert family) (x + IZR k)%R
      = convert (Exact.cyclic_convert family) x) /\
  (forall x : R,
      convert (Exact.cyclic_convert family) (frac_part x)
      = convert (Exact.cyclic_convert family) x) /\
  (forall v : Visual R,
      cm v = Exact.cyclic_convert family ->
      vertexColors (mesh (@fillFrameWithColour R Exact.ops v)) =
        vertexColors (mesh v) ++
        flat_map (fun ring =>
                    flat_map (fun j =>
                                [convert (Exact.cyclic_convert family)
                                   (@colour_fraction R Exact.ops v j +
                                    @decaying_sine R Exact.ops v
                                      (@norm_r_in R Exact.ops v ring) j)%R;
                                 convert (Exact.cyclic_convert family)
                                   (@colour_fraction R Exact.ops v j +
                                    @decaying_sine R Exact.ops v
                                      (@norm_r_out R Exact.ops v ring) j)%R])
                             (segment_range v))
                 (ring_range v) /\
      vertexColors (mesh (@fillFrameWithColour R Exact.ops v)) =
        vertexColors
          (mesh (@fillFrameWithColour R Exact.ops
                   (@set_cm R (Exact.with_explicit_wrap (cm v)) v)))).
Proof.
  assert (Hshift : forall (x : R) (k : Z),
             convert (Exact.cyclic_convert family) (x + IZR k)%R
             = convert (Exact.cyclic_convert family) x).
  { intros x k. cbn. now rewrite frac_part_shift. }
  assert (Hwrap : forall x : R,
             convert (Exact.cyclic_convert family) (frac_part x)
             = convert (Exact.cyclic_convert family) x).
  { intros x. cbn. now rewrite frac_part_idempotent. }
  split; [intros x; apply (Hshift x 1)|].
  split; [exact Hshift|].
  split; [exact Hwrap|].
  intros v Hcm. split.
  - rewrite (@fill_colours_closed R Exact.ops v), Hcm. reflexivity.
  - rewrite (@fill_colours_closed R Exact.ops v).
    rewrite (@fill_colours_closed R Exact.ops
               (@set_cm R (Exact.with_explicit_wrap (cm v)) v)).
    cbn [mesh set_cm]. f_equal.
    apply flat_map_ext_In. intros ring _.
    apply flat_map_ext_In. intros j _.
    cbn [cm set_cm convert Exact.with_explicit_wrap].
    rewrite Hcm, !Hwrap. reflexivity.
Qed.

(** C7 on the sample, whose colour map is a cyclic grey ramp. *)
Lemma cyclic_convert_witness :
  cm Sample.visual = Exact.cyclic_convert Sample.grey /\
  vertexColors (mesh (@fillFrameWithColour R Exact.ops Sample.visual)) =
    vertexColors
      (mesh (@fillFrameWithColour R Exact.ops
               (@set_cm R (Exact.with_explicit_wrap (cm Sample.visual))
                        Sample.visual))).
Proof.
  split; [reflexivity|].
  apply (cyclic_convert_mod_one Sample.grey). reflexivity.
Defined.

(** ** The midpoint of the Jet family *)

Section ExactMidpoint.

Variable jet : R -> rgb R.

Lemma clamp01_half_exact : @clamp01 R Exact.ops (1 / 2)%R = (1 / 2)%R.
Proof.
  unfold clamp01, fgtb, f_one. cbn. unfold Exact.ltb.
  destruct (Rlt_dec (1 / 2) 0) as [Hneg|_]; [lra|].
  destruct (Rlt_dec 1 (1 / 2)) as [Hbig|_]; [lra|reflexivity].
Qed.

Lemma normalise_int_half (range_min range_max value : Z) :
  range_max <> range_min ->
  2 * (value - range_min) = range_max - range_min ->
  @normalise_int R Exact.ops range_min range_max value = (1 / 2)%R.
Proof.
  intros Hne Hmid. unfold normalise_int. cbn.
  rewrite <- Hmid, mult_IZR.
  assert (Hnz : IZR (value - range_min) <> 0%R).
  { apply not_0_IZR. lia. }
  field. exact Hnz.
Qed.

Lemma normalise_float_half (range_min range_max value : R) :
  (range_max <> range_min)%R ->
  (2 * (value - range_min) = range_max - range_min)%R ->
  @normalise_float R Exact.ops range_min range_max value = (1 / 2)%R.
Proof.
  intros Hne Hmid. unfold normalise_float. cbn.
  rewrite <- Hmid. field. lra.
Qed.

(** A value halfway through the range is converted to the colour of the
    family at 0.5, whatever the input type. *)
Lemma convert_int_mid (range_min range_max value : Z) :
  range_max <> range_min ->
  2 * (value - range_min) = range_max - range_min ->
  @convert_int R Exact.ops jet range_min range_max value = jet (1 / 2)%R.
Proof.
  intros Hne Hmid. unfold convert_int.
  now rewrite normalise_int_half, clamp01_half_exact.
Qed.

Lemma convert_float_mid (range_min range_max value : R) :
  (range_max <> range_min)%R ->
  (2 * (value - range_min) = range_max - range_min)%R ->
  @convert_float R Exact.ops jet range_min range_max value = jet (1 / 2)%R.
Proof.
  intros Hne Hmid. unfold convert_float.
  now rewrite normalise_float_half, clamp01_half_exact.
Qed.

End ExactMidpoint.

Section Binary32Midpoint.

Variables sinf cosf : Binary32.float32 -> Binary32.float32.

#[local] Abbreviation ops32 := (Binary32.ops sinf cosf).

Variable jet : Binary32.float32 -> rgb Binary32.float32.
Hypothesis jet_mid : jet (@f_half _ ops32) = @mid_jet _ ops32.

(** Every input of the test lands on the single-precision 0.5 exactly. *)
Lemma test_inputs_land_on_half :
  @clamp01 _ ops32
    (@normalise_float _ ops32 (@fzero _ ops32) (@f_one _ ops32) (@f_half _ ops32))
    = @f_half _ ops32 /\
  @clamp01 _ ops32 (@normalise_int _ ops32 0 254 127) = @f_half _ ops32 /\
  @clamp01 _ ops32 (@normalise_int _ ops32 0 126 63) = @f_half _ ops32 /\
  @clamp01 _ ops32 (@normalise_int _ ops32 0 20000 10000) = @f_half _ ops32 /\
  @clamp01 _ ops32 (@normalise_int _ ops32 0 10000 5000) = @f_half _ ops32 /\
  @clamp01 _ ops32 (@normalise_int _ ops32 0 1000 500) = @f_half _ ops32 /\
  @clamp01 _ ops32 (@normalise_int _ ops32 0 256 128) = @f_half _ ops32 /\
  @clamp01 _ ops32 (@normalise_int _ ops32 0 1000000 500000) = @f_half _ ops32.
Proof. repeat split; vm_compute; reflexivity. Qed.

Lemma mid_jet_equals_itself :
  @rgb_eqb _ ops32 (@mid_jet _ ops32) (@mid_jet _ ops32) = true.
Proof. vm_compute. reflexivity. Qed.

Lemma main_passes : @main _ ops32 jet = 0.
Proof.
  destruct test_inputs_land_on_half
    as (Hf & Huc & Hc & Hi & Hui & Hs & Hll & Hull).
  unfold main, convert_float, convert_int, check_mid. cbv zeta.
  rewrite Hf, Huc, Hc, Hi, Hui, Hs, Hll, Hull, jet_mid, mid_jet_equals_itself.
  reflexivity.
Qed.

End Binary32Midpoint.

(** C8: for a Jet colour function whose value at the fraction 0.5 is the
    documented triple (0.541, 0.76, 0.018), the conversion of a value that
    lies exactly halfway between range_min and range_max returns that
    triple, the fraction being (value - range_min) / (range_max -
    range_min), for integral and for floating-point inputs in exact
    arithmetic; and in single precision every input type of the test
    program lands on 0.5 exactly, so that the program returns 0. *)
Theorem jet_midpoint_for_every_input_type :
  (forall (jet : R -> rgb R) (range_min range_max value : Z),
      range_max <> range_min ->
      2 * (value - range_min) = range_max - range_min ->
      @normalise_int R Exact.ops range_min range_max value
        = (IZR (value - range_min) / IZR (range_max - range_min))%R /\
      @convert_int R Exact.ops jet range_min range_max value = jet (1 / 2)%R /\
      (jet (1 / 2)%R = @mid_jet R Exact.ops ->
       @convert_int R Exact.ops jet range_min range_max value
         = ((541 / 1000)%R, (76 / 100)%R, (18 / 1000)%R))) /\
  (forall (jet : R -> rgb R) (range_min range_max value : R),
      (range_max <> range_min)%R ->
      (2 * (value - range_min) = range_max - range_min)%R ->
      @convert_float R Exact.ops jet range_min range_max value = jet (1 / 2)%R /\
      (jet (1 / 2)%R = @mid_jet R Exact.ops ->
       @convert_float R Exact.ops jet range_min range_max value
         = ((541 / 1000)%R, (76 / 100)%R, (18 / 1000)%R))) /\
  (forall (sinf cosf : Binary32.float32 -> Binary32.float32)
          (jet : Binary32.float32 -> rgb Binary32.float32),
      jet (@f_half _ (Binary32.ops sinf cosf)) = @mid_jet _ (Binary32.ops sinf cosf) ->
      @main _ (Binary32.ops sinf cosf) jet = 0).
Proof.
  split; [|split].
  - intros jet range_min range_max value Hne Hmid.
    split; [reflexivity|].
    rewrite (convert_int_mid jet) by assumption.
    split; [reflexivity|]. intros Hjet. now rewrite Hjet.
  - intros jet range_min range_max value Hne Hmid.
    rewrite (convert_float_mid jet) by assumption.
    split; [reflexivity|]. intros Hjet. now rewrite Hjet.
  - intros sinf cosf jet Hjet. now apply main_passes.
Qed.

(** C8 on the unsigned-char case of the test, range [0, 254] and value 127,
    and on the whole test program. *)
Lemma jet_midpoint_witness :
  @convert_int R Exact.ops Sample.jet_mid_only 0 254 127
    = ((541 / 1000)%R, (76 / 100)%R, (18 / 1000)%R) /\
  @main _ (Binary32.ops (fun y => y) (fun y => y)) Sample.jet_mid_only_f = 0.
Proof.
  destruct jet_midpoint_for_every_input_type as (Hint & _ & Htest).
  split.
  - destruct (Hint Sample.jet_mid_only 0 254 127) as (_ & _ & Hmid); [lia|lia|].
    apply Hmid.
    unfold Sample.jet_mid_only, Exact.eqb.
    destruct (Req_dec_T (1 / 2) (1 / 2)) as [_|Hne]; [reflexivity|].
    exfalso. now apply Hne.
  - apply Htest. vm_compute. reflexivity.
Defined.

(** ** A remark on single precision *)

(** In single precision the base fraction of the default 128 segments is
    j / 128 up to rounding only: for j = 11 the product with 2 pi followed
    by the division by 2 pi does not return to 11 / 128. *)
Remark fraction_rounds_in_single_precision
    (sinf cosf : Binary32.float32 -> Binary32.float32)
    (colourmap : ColourMap Binary32.float32) (offset : vec Binary32.float32) :
  let ops := Binary32.ops sinf cosf in
  let v := @CyclicColourVisual _ ops colourmap offset in
  SFeqb (@colour_fraction _ ops v 11) (SFdiv 24 128 (Binary32.of_Z 11) (Binary32.of_Z 128))
    = false /\
  SFeqb (@colour_fraction _ ops v 7) (SFdiv 24 128 (Binary32.of_Z 7) (Binary32.of_Z 128))
    = true.
Proof. cbv zeta. split; vm_compute; reflexivity. Qed.

(** * Further properties of the code *)

(** ** Degenerate counts *)

Section ZeroCounts.

Context {F : Type} {ops : FloatOps F}.

Variable v : Visual F.

Lemma fill_ring_no_segments (m : Mesh F) (ring : Z) :
  numsegs v = 0 -> 0 <= idx m < modulus -> fill_ring v m ring = m.
Proof.
  intros Hs Hidx. rewrite fill_ring_closed.
  unfold ring_positions, ring_normals, ring_colours, ring_indices, next_base,
    segment_range.
  rewrite Hs. cbn [wrap_s]. change (count_up (wrap_s 0)) with (@nil Z).
  cbn [flat_map]. rewrite !app_nil_r.
  change (wrap_u (2 * 0)) with 0. rewrite Z.add_0_r, wrap_u_small by assumption.
  now destruct m.
Qed.

Lemma fold_fill_ring_no_segments (rings : list Z) (m : Mesh F) :
  numsegs v = 0 -> 0 <= idx m < modulus ->
  fold_left (fill_ring v) rings m = m.
Proof.
  intros Hs Hidx. induction rings as [|r rings IH]; [reflexivity|].
  cbn [fold_left]. now rewrite fill_ring_no_segments.
Qed.

End ZeroCounts.

(** X1: with a ring count of zero or a segment count of zero the fill pass
    returns the visual as it was: no vertex, no index, no change of the
    offset (an [unsigned int], so within [0, 2^32)). *)
Theorem fill_is_identity_without_rings_or_segments
    {F : Type} {ops : FloatOps F} (v : Visual F) :
  numrings v = 0 \/ numsegs v = 0 ->
  0 <= idx (mesh v) < 2 ^ 32 ->
  fillFrameWithColour v = v.
Proof.
  intros Hcount Hidx.
  assert (Hmesh : fill_mesh v (mesh v) = mesh v).
  { destruct Hcount as [Hr|Hs].
    - unfold fill_mesh, ring_range. rewrite Hr. reflexivity.
    - now apply fold_fill_ring_no_segments. }
  unfold fillFrameWithColour. rewrite Hmesh. now destruct v.
Qed.

Lemma fill_is_identity_witness :
  numsegs (@set_counts R 64 0 Sample.visual) = 0 /\
  @fillFrameWithColour R Exact.ops (@set_counts R 64 0 Sample.visual)
    = @set_counts R 64 0 Sample.visual.
Proof.
  split; [reflexivity|].
  apply (@fill_is_identity_without_rings_or_segments R Exact.ops).
  - right. reflexivity.
  - cbn. lia.
Defined.

(** ** What the fill pass appends *)

Lemma flat_map_constant_block {A B : Type} (x : B) (k : nat) (l : list A) :
  flat_map (fun _ : A => repeat x k) l = repeat x (List.length l * k).
Proof.
  induction l as [|a l IH]; [reflexivity|].
  cbn [flat_map List.length]. rewrite IH.
  replace (Datatypes.S (List.length l) * k)%nat with (k + List.length l * k)%nat by lia.
  now rewrite repeat_app.
Qed.

(** X2: every normal the fill pass appends is the axis [uz], two per
    segment of every ring built, behind the normals already there; the
    positions, colours and indices already in the buffers stay as a prefix,
    and no member other than the mesh changes. *)
Theorem fill_appends_axis_normals {F : Type} {ops : FloatOps F} (v : Visual F) :
  let m := mesh v in
  let m' := mesh (fillFrameWithColour v) in
  vertexNormals m' =
    vertexNormals m ++ repeat (uz v) (2 * (rings_built v * segments_built v)) /\
  (exists ps cs ixs,
      vertexPositions m' = vertexPositions m ++ ps /\
      vertexColors m' = vertexColors m ++ cs /\
      indices m' = indices m ++ ixs) /\
  fillFrameWithColour v = set_mesh m' v.
Proof.
  cbv zeta. unfold fillFrameWithColour. cbn [mesh set_mesh].
  rewrite fill_mesh_closed. cbn [vertexNormals vertexPositions vertexColors indices].
  split; [|split].
  - f_equal. unfold ring_normals.
    replace (flat_map (fun _ : Z => [uz v; uz v]) (segment_range v))
      with (repeat (uz v) (2 * segments_built v)).
    + rewrite (flat_map_constant_block (uz v) (2 * segments_built v) (ring_range v)).
      f_equal. unfold rings_built. lia.
    + unfold segments_built.
      induction (segment_range v) as [|j l IH]; [reflexivity|].
      cbn [flat_map List.length].
      replace (2 * Datatypes.S (List.length l))%nat
        with (Datatypes.S (Datatypes.S (2 * List.length l))) by lia.
      cbn [repeat app]. now rewrite IH.
  - eexists _, _, _. repeat split.
  - reflexivity.
Qed.

(** ** The triangles of one ring *)

Lemma triangles_quads (S base : Z) (js : list Z) :
  triangles (flat_map (quad S base) js) =
  flat_map (fun j =>
              [(base + 2 * j, base + 2 * ((j + 1) mod S), base + 2 * ((j + 1) mod S) + 1);
               (base + 2 * j, base + 2 * ((j + 1) mod S) + 1, base + 2 * j + 1)])
           js.
Proof.
  induction js as [|j js IH]; [reflexivity|].
  cbn [flat_map]. unfold quad at 1. cbv zeta. cbn [app triangles].
  now rewrite IH.
Qed.

Lemma In_ring_quads (S base i : Z) :
  0 < S ->
  In i (flat_map (quad S base) (count_up S)) <-> base <= i < base + 2 * S.
Proof.
  intros HS. rewrite in_flat_map. split.
  - intros (j & Hj & Hin). apply count_up_In in Hj.
    pose proof (Z.mod_pos_bound (j + 1) S HS) as Hm.
    unfold quad in Hin. cbv zeta in Hin. cbn [In] in Hin.
    destruct Hin as [<-|[<-|[<-|[<-|[<-|[<-|[]]]]]]]; lia.
  - intros Hi. exists ((i - base) / 2). split.
    + apply count_up_In. split.
      * apply Z.div_pos; lia.
      * apply Z.div_lt_upper_bound; lia.
    + pose proof (Z.div_mod (i - base) 2 ltac:(lia)) as Hdm.
      pose proof (Z.mod_pos_bound (i - base) 2 ltac:(lia)) as Hmb.
      unfold quad. cbv zeta. cbn [In].
      destruct (Z.eq_dec ((i - base) mod 2) 0) as [Heven|Hodd].
      * left. lia.
      * do 5 right. left. lia.
Qed.

(** X3: under the bounds that exclude overflow, the index entries one ring
    appends are exactly the indices of the 2 * segment_count vertices the
    same ring has just pushed: every entry lies in [idx, idx + 2 *
    segment_count), and every index of that interval occurs.  No triangle
    reaches a vertex of another ring or of the frame, and no vertex of the
    ring is left unused. *)
Theorem ring_triangles_use_exactly_the_ring_vertices
    {F : Type} {ops : FloatOps F} (v : Visual F) (m : Mesh F) (ring : Z) :
  0 < numsegs v <= 2 ^ 30 ->
  0 <= idx m ->
  idx m + 2 * numsegs v <= 2 ^ 32 ->
  exists added,
    indices (fill_ring v m ring) = indices m ++ added /\
    List.length added = Z.to_nat (6 * numsegs v) /\
    forall i, In i added <-> idx m <= i < idx m + 2 * numsegs v.
Proof.
  intros Hs Hidx Hb.
  exists (ring_indices v (idx m)). split; [|split].
  - now rewrite fill_ring_closed.
  - rewrite ring_indices_length. unfold segments_built.
    rewrite segment_range_exact, count_up_length by lia. lia.
  - intros i. rewrite ring_indices_quads by (unfold modulus; lia).
    apply In_ring_quads. lia.
Qed.

Lemma ring_triangles_witness :
  exists added,
    indices (@fill_ring R Exact.ops Sample.small (mesh Sample.small) 3)
      = indices (mesh Sample.small) ++ added /\
    forall i, In i added <-> 0 <= i < 0 + 2 * 5.
Proof.
  destruct (@ring_triangles_use_exactly_the_ring_vertices
              R Exact.ops Sample.small (mesh Sample.small) 3)
    as (added & Hadd & _ & Hin); [cbn; lia | cbn; lia | cbn; lia |].
  exists added. split; [exact Hadd|exact Hin].
Defined.

(** X4: with two segments or more every triangle of a ring has three
    different corners; with a single segment the successor of the segment
    is the segment itself and every triangle repeats a corner. *)
Theorem ring_triangles_have_distinct_corners
    {F : Type} {ops : FloatOps F} (v : Visual F) (m : Mesh F) (ring : Z) :
  0 < numsegs v <= 2 ^ 30 ->
  0 <= idx m ->
  idx m + 2 * numsegs v <= 2 ^ 32 ->
  exists added,
    indices (fill_ring v m ring) = indices m ++ added /\
    (2 <= numsegs v -> Forall distinct_corners (triangles added)) /\
    (numsegs v = 1 -> Forall (fun t => ~ distinct_corners t) (triangles added)).
Proof.
  intros Hs Hidx Hb.
  exists (ring_indices v (idx m)). split; [now rewrite fill_ring_closed|].
  rewrite ring_indices_quads by (unfold modulus; lia).
  rewrite triangles_quads.
  split; intros Hn; apply Forall_forall; intros t Ht;
    apply in_flat_map in Ht; destruct Ht as (j & Hj & Ht);
    apply count_up_In in Hj; cbn [In] in Ht.
  - assert (Hjn : (j + 1) mod numsegs v <> j).
    { destruct (Z.eq_dec (j + 1) (numsegs v)) as [E|E].
      - rewrite E, Z.mod_same by lia. lia.
      - rewrite Z.mod_small by lia. lia. }
    destruct Ht as [<-|[<-|[]]]; unfold distinct_corners; repeat split; lia.
  - assert (Hj0 : j = 0) by lia. subst j. rewrite Hn in Ht.
    change ((0 + 1) mod 1) with 0 in Ht.
    destruct Ht as [<-|[<-|[]]]; unfold distinct_corners; intros (H1 & H2 & H3); lia.
Qed.

Lemma ring_triangles_distinct_witness :
  exists added,
    indices (@fill_ring R Exact.ops Sample.small (mesh Sample.small) 3)
      = indices (mesh Sample.small) ++ added /\
    Forall distinct_corners (triangles added).
Proof.
  destruct (@ring_triangles_have_distinct_corners
              R Exact.ops Sample.small (mesh Sample.small) 3)
    as (added & Hadd & Hdist & _); [cbn; lia | cbn; lia | cbn; lia |].
  exists added. split; [exact Hadd|]. apply Hdist. cbn. lia.
Defined.

(** ** The rings in exact arithmetic *)

(** Neighbouring rings compute their common boundary by one expression, so
    the two radii agree in every arithmetic. *)
Lemma adjacent_rings_share_boundary
    {F : Type} {ops : FloatOps F} (v : Visual F) (ring : Z) :
  In ring (ring_range v) -> r_in v ring = r_out v (ring - 1).
Proof.
  intros Hin. unfold r_in, r_out. now rewrite (ring_range_pred v ring Hin).
Qed.

Section ExactRings.

Variable v : Visual R.

Hypothesis rings_pos : 0 < numrings v < 2 ^ 31.

Lemma ring_in_range (ring : Z) :
  1 <= ring <= numrings v -> In ring (ring_range v).
Proof.
  intros Hr. apply count_down_In.
  rewrite wrap_s_small by (unfold half_modulus; lia). exact Hr.
Qed.

Lemma numrings_nonzero : IZR (numrings v) <> 0%R.
Proof. apply not_0_IZR. lia. Qed.

Lemma r_out_exact (ring : Z) :
  @r_out R Exact.ops v ring =
  (inner_radius v
   + (outer_radius v - inner_radius v) * (IZR ring / IZR (numrings v)))%R.
Proof.
  unfold r_out, r_dr, r_d. cbn. field. exact numrings_nonzero.
Qed.

Lemma r_in_exact (ring : Z) :
  1 <= ring <= numrings v ->
  @r_in R Exact.ops v ring =
  (inner_radius v
   + (outer_radius v - inner_radius v) * (IZR (ring - 1) / IZR (numrings v)))%R.
Proof.
  intros Hr.
  rewrite (adjacent_rings_share_boundary v ring (ring_in_range ring Hr)).
  apply r_out_exact.
Qed.

Lemma ring_ratio_bounds (k : Z) :
  0 <= k <= numrings v ->
  (0 <= IZR k / IZR (numrings v) <= 1)%R.
Proof.
  intros Hk.
  assert (Hn : (0 < IZR (numrings v))%R) by (apply IZR_lt; lia).
  assert (Hk0 : (0 <= IZR k)%R) by (apply IZR_le; lia).
  assert (Hkn : (IZR k <= IZR (numrings v))%R) by (apply IZR_le; lia).
  split.
  - apply Rmult_le_pos; [exact Hk0|]. left. now apply Rinv_0_lt_compat.
  - apply (Rmult_le_reg_r (IZR (numrings v))); [exact Hn|].
    unfold Rdiv. rewrite Rmult_assoc, Rinv_l, Rmult_1_r, Rmult_1_l; lra.
Qed.

End ExactRings.

(** X5: in exact arithmetic, for a ring count between 1 and 2^31 - 1, the
    rings tile the radial span: the innermost boundary is inner_radius, the
    outermost is outer_radius, each ring starts where the one inside it
    ends, and for inner_radius <= outer_radius every ring lies between the
    two radii with its inner boundary not beyond its outer one. *)
Theorem rings_tile_the_radial_span (v : Visual R) :
  0 < numrings v < 2 ^ 31 ->
  @r_in R Exact.ops v 1 = inner_radius v /\
  @r_out R Exact.ops v (numrings v) = outer_radius v /\
  (forall ring, 2 <= ring <= numrings v ->
     @r_in R Exact.ops v ring = @r_out R Exact.ops v (ring - 1)) /\
  ((inner_radius v <= outer_radius v)%R ->
   forall ring, 1 <= ring <= numrings v ->
     (inner_radius v <= @r_in R Exact.ops v ring)%R /\
     (@r_in R Exact.ops v ring <= @r_out R Exact.ops v ring)%R /\
     (@r_out R Exact.ops v ring <= outer_radius v)%R).
Proof.
  intros Hn.
  pose proof (numrings_nonzero v Hn) as Hnz.
  split; [|split; [|split]].
  - rewrite (r_in_exact v Hn 1) by lia. change (1 - 1) with 0.
    unfold Rdiv. rewrite Rmult_0_l, Rmult_0_r. ring.
  - rewrite (r_out_exact v Hn). field. exact Hnz.
  - intros ring Hr. apply (@adjacent_rings_share_boundary R Exact.ops).
    apply (ring_in_range v Hn). lia.
  - intros Hio ring Hr.
    rewrite (r_in_exact v Hn ring Hr), (r_out_exact v Hn ring).
    pose proof (ring_ratio_bounds v Hn (ring - 1) ltac:(lia)) as [Hlo1 Hhi1].
    pose proof (ring_ratio_bounds v Hn ring ltac:(lia)) as [Hlo2 Hhi2].
    assert (Hstep : (IZR (ring - 1) / IZR (numrings v)
                     <= IZR ring / IZR (numrings v))%R).
    { unfold Rdiv. apply Rmult_le_compat_r.
      - left. apply Rinv_0_lt_compat. apply IZR_lt. lia.
      - apply IZR_le. lia. }
    repeat split; nra.
Qed.

Lemma rings_tile_witness :
  0 < numrings Sample.visual < 2 ^ 31 /\
  @r_in R Exact.ops Sample.visual 1 = inner_radius Sample.visual /\
  @r_out R Exact.ops Sample.visual (numrings Sample.visual)
    = outer_radius Sample.visual.
Proof.
  assert (Hn : 0 < numrings Sample.visual < 2 ^ 31) by (cbn; lia).
  split; [exact Hn|].
  destruct (rings_tile_the_radial_span Sample.visual Hn) as (H1 & H2 & _).
  split; assumption.
Defined.

(** ** The argument of the colour converter *)

Lemma norm_r_out_exact (v : Visual R) (ring : Z) :
  0 < numrings v < 2 ^ 31 ->
  outer_radius v <> inner_radius v ->
  @norm_r_out R Exact.ops v ring = (IZR ring / IZR (numrings v))%R.
Proof.
  intros Hn Hd. unfold norm_r_out. rewrite (r_out_exact v Hn). unfold r_d. cbn.
  field. split; [exact (numrings_nonzero v Hn)|lra].
Qed.

Lemma norm_r_in_exact (v : Visual R) (ring : Z) :
  0 < numrings v < 2 ^ 31 ->
  outer_radius v <> inner_radius v ->
  1 <= ring <= numrings v ->
  @norm_r_in R Exact.ops v ring = (IZR (ring - 1) / IZR (numrings v))%R.
Proof.
  intros Hn Hd Hr. unfold norm_r_in. rewrite (r_in_exact v Hn ring Hr).
  unfold r_d. cbn. field. split; [exact (numrings_nonzero v Hn)|lra].
Qed.

Lemma Rabs_le_bounds (x b : R) : (Rabs x <= b)%R -> (- b <= x <= b)%R.
Proof.
  intros Hx. pose proof (Rle_abs x) as H1. pose proof (Rle_abs (- x)) as H2.
  rewrite Rabs_Ropp in H2. split; lra.
Qed.

Lemma decaying_sine_bounded (v : Visual R) (norm_r : R) (j : Z) :
  (0 <= norm_r <= 1)%R ->
  (Rabs (@decaying_sine R Exact.ops v norm_r j) <= 1 / 10)%R.
Proof.
  intros Hn. rewrite decaying_sine_exact. unfold SpecColour.perturbation.
  destruct (show_perception_sine v).
  - pose proof (SIN_bound (20 * PI * SpecColour.angle (numsegs v) j)) as [Hlo Hhi].
    set (s := sin (20 * PI * SpecColour.angle (numsegs v) j)) in *.
    assert (Hq : (0 <= norm_r * norm_r <= 1)%R) by nra.
    apply Rabs_le. split; nra.
  - rewrite Rabs_R0. lra.
Qed.

(** X6: in exact arithmetic, for distinct radii and counts between 1 and
    2^31 - 1, the normalised radial positions of a ring are ring /
    ring_count and (ring - 1) / ring_count, both within [0, 1], the
    perturbation never exceeds 0.1 in magnitude, and the value handed to the
    colour converter lies in [-0.1, 1.1). *)
Theorem converter_argument_within_a_tenth_of_unit_range
    (v : Visual R) (ring j : Z) :
  0 < numrings v < 2 ^ 31 ->
  0 < numsegs v < 2 ^ 31 ->
  outer_radius v <> inner_radius v ->
  1 <= ring <= numrings v ->
  0 <= j < numsegs v ->
  @norm_r_out R Exact.ops v ring = (IZR ring / IZR (numrings v))%R /\
  @norm_r_in R Exact.ops v ring = (IZR (ring - 1) / IZR (numrings v))%R /\
  (Rabs (@decaying_sine R Exact.ops v (@norm_r_out R Exact.ops v ring) j)
     <= 1 / 10)%R /\
  (Rabs (@decaying_sine R Exact.ops v (@norm_r_in R Exact.ops v ring) j)
     <= 1 / 10)%R /\
  (- (1 / 10) <=
     @colour_fraction R Exact.ops v j
     + @decaying_sine R Exact.ops v (@norm_r_out R Exact.ops v ring) j
   < 1 + 1 / 10)%R /\
  (- (1 / 10) <=
     @colour_fraction R Exact.ops v j
     + @decaying_sine R Exact.ops v (@norm_r_in R Exact.ops v ring) j
   < 1 + 1 / 10)%R.
Proof.
  intros Hn Hs Hd Hr Hj.
  pose proof (norm_r_out_exact v ring Hn Hd) as Hout.
  pose proof (norm_r_in_exact v ring Hn Hd Hr) as Hin.
  pose proof (ring_ratio_bounds v Hn ring ltac:(lia)) as Bout.
  pose proof (ring_ratio_bounds v Hn (ring - 1) ltac:(lia)) as Bin.
  rewrite <- Hout in Bout. rewrite <- Hin in Bin.
  pose proof (decaying_sine_bounded v _ j Bout) as Sout.
  pose proof (decaying_sine_bounded v _ j Bin) as Sin.
  assert (Hfrac : (0 <= @colour_fraction R Exact.ops v j < 1)%R).
  { rewrite colour_fraction_exact. unfold SpecColour.fraction.
    assert (HS : (0 < IZR (numsegs v))%R) by (apply IZR_lt; lia).
    assert (Hj0 : (0 <= IZR j)%R) by (apply IZR_le; lia).
    assert (HjS : (IZR j < IZR (numsegs v))%R) by (apply IZR_lt; lia).
    split.
    - apply Rmult_le_pos; [exact Hj0|]. left. now apply Rinv_0_lt_compat.
    - apply (Rmult_lt_reg_r (IZR (numsegs v))); [exact HS|].
      unfold Rdiv. rewrite Rmult_assoc, Rinv_l, Rmult_1_r, Rmult_1_l; lra. }
  pose proof (Rabs_le_bounds _ _ Sout) as Bo. pose proof (Rabs_le_bounds _ _ Sin) as Bi.
  split; [exact Hout|]. split; [exact Hin|].
  split; [exact Sout|]. split; [exact Sin|].
  split; lra.
Qed.

Lemma converter_argument_witness :
  (Rabs (@decaying_sine R Exact.ops Sample.visual
           (@norm_r_out R Exact.ops Sample.visual 64) 0) <= 1 / 10)%R.
Proof.
  apply (converter_argument_within_a_tenth_of_unit_range Sample.visual 64 0);
    cbn; try lia; lra.
Defined.

(** ** The position of a vertex *)

(** X7: in exact arithmetic, when [ux] and [uy] are the unit vectors of
    the x and y axes, the vertex of segment j at the radius r is (r cos t,
    r sin t, z) with t = j 2 pi / segment_count: it lies in the plane of
    the disc, on the circle of radius |r| about the axis, and the segment
    index segment_count would fall on the vertex of segment 0 again. *)
Theorem fill_vertex_lies_on_its_circle (v : Visual R) (r : R) (j : Z) :
  ux v = mkvec 1%R 0%R 0%R ->
  uy v = mkvec 0%R 1%R 0%R ->
  let t := (IZR j * (2 * PI) / IZR (numsegs v))%R in
  let p := @ring_point R Exact.ops v r j in
  p = mkvec (r * cos t)%R (r * sin t)%R (z v) /\
  (vx p * vx p + vy p * vy p = r * r)%R /\
  (numsegs v <> 0 ->
   @ring_point R Exact.ops v r (j + numsegs v) = p).
Proof.
  intros Hux Huy. cbv zeta.
  assert (Hp : forall k,
             @ring_point R Exact.ops v r k =
             mkvec (r * cos (IZR k * (2 * PI) / IZR (numsegs v)))%R
                   (r * sin (IZR k * (2 * PI) / IZR (numsegs v)))%R (z v)).
  { intros k. unfold ring_point, centre, vec_add, vec_scale, seg_t.
    rewrite Hux, Huy. cbn. f_equal; ring. }
  split; [apply Hp|]. split.
  - rewrite Hp. cbn [vx vy].
    pose proof (sin2_cos2 (IZR j * (2 * PI) / IZR (numsegs v))) as Hone.
    unfold Rsqr in Hone. nra.
  - intros HS. rewrite !Hp.
    assert (Hnz : IZR (numsegs v) <> 0%R) by (now apply not_0_IZR).
    replace (IZR (j + numsegs v) * (2 * PI) / IZR (numsegs v))%R
      with (IZR j * (2 * PI) / IZR (numsegs v) + 2 * PI)%R
      by (rewrite plus_IZR; field; exact Hnz).
    rewrite cos_plus, sin_plus, cos_2PI, sin_2PI. f_equal; ring.
Qed.

Lemma fill_vertex_witness :
  let p := @ring_point R Exact.ops Sample.visual 1%R 5 in
  (vx p * vx p + vy p * vy p = 1 * 1)%R.
Proof.
  cbv zeta.
  apply (fill_vertex_lies_on_its_circle Sample.visual 1%R 5); cbn; f_equal.
Defined.

(** ** When the tick-label pass is defined *)

Section LabelBounds.

Context {F : Type} {ops : FloatOps F}.

Variable getTextGeometry : TextFeatures F -> string -> TextGeometry F.

Lemma place_labels_needs_labels (angles : list F) :
  forall (i : nat) (v v' : Visual F),
    place_labels getTextGeometry i angles v = Some v' ->
    angles = [] \/ (i + List.length angles <= List.length (labels v))%nat.
Proof.
  induction angles as [|a rest IH]; intros i v v' Hrun; [now left|].
  right. cbn [place_labels] in Hrun. unfold place_label in Hrun.
  destruct (nth_error (labels v) i) as [s|] eqn:Hs; [|discriminate].
  assert (Hi : (i < List.length (labels v))%nat).
  { apply nth_error_Some. now rewrite Hs. }
  cbv zeta in Hrun. apply IH in Hrun. cbn [List.length].
  destruct Hrun as [->|Hrest]; [cbn; lia|].
  cbn [labels push_text set_ticklabelsize] in Hrest. lia.
Qed.

End LabelBounds.

(** X8: for containers below 2^32 entries, the tick-label pass has a
    defined result exactly when the explicit angles are not more than the
    labels; with more angles than labels the loop of line 89 reads
    [labels[i]] out of range. *)
Theorem drawTickLabels_defined_iff_enough_labels
    {F : Type} {ops : FloatOps F}
    (getTextGeometry : TextFeatures F -> string -> TextGeometry F)
    (v : Visual F) :
  Z.of_nat (List.length (labels v)) < 2 ^ 32 ->
  Z.of_nat (List.length (label_angles v)) < 2 ^ 32 ->
  ((exists v', drawTickLabels getTextGeometry v = Some v') <->
   (List.length (label_angles v) <= List.length (labels v))%nat).
Proof.
  intros Hl Ha. split.
  - intros (v' & Hrun). unfold drawTickLabels in Hrun. cbv zeta in Hrun.
    destruct (label_angles v) as [|a angles] eqn:E; [cbn; lia|].
    replace (label_angles (set_ticklabelsize fzero fzero v)) with (a :: angles)
      in Hrun by (now rewrite <- E).
    destruct (fits_unsigned (a :: angles)); [|discriminate].
    apply place_labels_needs_labels in Hrun.
    destruct Hrun as [Hnil|Hlen]; [discriminate|].
    cbn [labels set_ticklabelsize] in Hlen. lia.
  - intros Hlen.
    destruct (drawTickLabels_closed getTextGeometry v Hl Hlen) as (h & w & Hrun).
    eexists. exact Hrun.
Qed.

Lemma drawTickLabels_defined_witness :
  (exists v', @drawTickLabels R Exact.ops Sample.measure Sample.visual = Some v').
Proof.
  apply (@drawTickLabels_defined_iff_enough_labels R Exact.ops Sample.measure
           Sample.visual); cbn; lia.
Defined.

(** ** The text objects of the labels *)

Lemma map_snd_combine_firstn {A B : Type} (l1 : list A) :
  forall l2 : list B,
    (List.length l1 <= List.length l2)%nat ->
    map snd (combine l1 l2) = firstn (List.length l1) l2.
Proof.
  induction l1 as [|a l1 IH]; intros [|b l2] Hlen; cbn in *; try reflexivity; try lia.
  f_equal. apply IH. lia.
Qed.

Lemma working_angles_length {F : Type} {ops : FloatOps F} (v : Visual F) :
  (List.length (label_angles v) <= List.length (labels v))%nat ->
  (List.length (working_angles v) <= List.length (labels v))%nat.
Proof.
  intros Hlen. unfold working_angles.
  destruct (label_angles v) as [|a angles]; [|exact Hlen].
  now rewrite auto_label_angles_length.
Qed.

(** X9: when every angle has a label, the pass appends one text object per
    angle behind the texts already there; the i-th of them shows the i-th
    label string in the text colour, labels beyond the last angle are left
    out without notice, explicit angles are kept as given and generated
    angles are as many as the labels. *)
Theorem labels_are_placed_in_order
    {F : Type} {ops : FloatOps F}
    (getTextGeometry : TextFeatures F -> string -> TextGeometry F)
    (v : Visual F) :
  Z.of_nat (List.length (labels v)) < 2 ^ 32 ->
  (List.length (label_angles v) <= List.length (labels v))%nat ->
  exists v' added,
    drawTickLabels getTextGeometry v = Some v' /\
    texts v' = texts v ++ added /\
    List.length added = List.length (label_angles v') /\
    map (@txt F) added = firstn (List.length (label_angles v')) (labels v) /\
    Forall (fun t => txt_colour t = colour (tf v)) added /\
    (label_angles v <> [] -> label_angles v' = label_angles v) /\
    (label_angles v = [] ->
     List.length (label_angles v') = List.length (labels v)).
Proof.
  intros Hfit Hlen.
  destruct (drawTickLabels_closed getTextGeometry v Hfit Hlen) as (h & w & Hrun).
  pose proof (working_angles_length v Hlen) as Hw.
  eexists. exists (placed getTextGeometry v 0 (working_angles v)).
  split; [exact Hrun|].
  cbn [texts label_angles set_label_state set_label_angles].
  unfold placed. cbn [skipn].
  split; [reflexivity|]. split; [|split; [|split; [|split]]].
  - rewrite length_map, length_combine. lia.
  - rewrite map_map. cbn [txt label_model].
    rewrite <- (map_snd_combine_firstn _ _ Hw). reflexivity.
  - apply Forall_forall. intros t Ht. apply in_map_iff in Ht.
    destruct Ht as (p & <- & _). reflexivity.
  - intros Hne. unfold working_angles.
    destruct (label_angles v); [contradiction|reflexivity].
  - intros He. unfold working_angles. rewrite He.
    apply auto_label_angles_length.
Qed.

Lemma labels_are_placed_witness :
  exists v' added,
    @drawTickLabels R Exact.ops Sample.measure Sample.visual = Some v' /\
    texts v' = texts Sample.visual ++ added /\
    List.length added = List.length (label_angles v').
Proof.
  destruct (@labels_are_placed_in_order R Exact.ops Sample.measure Sample.visual)
    as (v' & added & Hrun & Ht & Hl & _); [cbn; lia | cbn; lia |].
  exists v', added. repeat split; assumption.
Defined.

(** ** The running maxima *)

Lemma firstn_skipn_cons {A : Type} (l : list A) (i n : nat) (x : A) :
  nth_error l i = Some x ->
  firstn (Datatypes.S n) (skipn i l) = x :: firstn n (skipn (Datatypes.S i) l).
Proof. intros Hx. now rewrite (nth_error_skipn l i x Hx). Qed.

Section Maxima.

Context {F : Type} {ops : FloatOps F}.

Variable getTextGeometry : TextFeatures F -> string -> TextGeometry F.

Lemma place_labels_maxima (angles : list F) :
  forall (i : nat) (v v' : Visual F),
    place_labels getTextGeometry i angles v = Some v' ->
    let used := firstn (List.length angles) (skipn i (labels v)) in
    ticklabelheight v' =
      running_max (@height F) getTextGeometry (tf v) (ticklabelheight v) used /\
    ticklabelwidth v' =
      running_max (@width F) getTextGeometry (tf v) (ticklabelwidth v) used.
Proof.
  induction angles as [|a rest IH]; intros i v v' Hrun; cbv zeta.
  - cbn in Hrun. inversion Hrun; subst. now split.
  - cbn [place_labels] in Hrun. unfold place_label in Hrun.
    destruct (nth_error (labels v) i) as [s|] eqn:Hs; [|discriminate].
    cbv zeta in Hrun. apply IH in Hrun. cbv zeta in Hrun.
    cbn [labels tf ticklabelheight ticklabelwidth push_text set_ticklabelsize]
      in Hrun.
    cbn [List.length]. rewrite (firstn_skipn_cons (labels v) i _ s Hs).
    unfold running_max in *. cbn [fold_left]. exact Hrun.
Qed.

Lemma drawTickLabels_maxima (v v' : Visual F) :
  drawTickLabels getTextGeometry v = Some v' ->
  let used := firstn (List.length (label_angles v')) (labels v) in
  ticklabelheight v' = running_max (@height F) getTextGeometry (tf v) fzero used /\
  ticklabelwidth v' = running_max (@width F) getTextGeometry (tf v) fzero used.
Proof.
  intros Hrun. cbv zeta.
  pose proof Hrun as Hshape. unfold drawTickLabels in Hshape. cbv zeta in Hshape.
  destruct (label_angles (set_ticklabelsize fzero fzero v)) as [|a angles] eqn:Ha.
  - destruct (fits_unsigned _); [|discriminate].
    pose proof (place_labels_inv getTextGeometry _ _ _ _ Hshape)
      as (h & w & ts & Hv').
    apply place_labels_maxima in Hshape. cbv zeta in Hshape.
    rewrite Hv'. rewrite Hv' in Hshape.
    cbn [label_angles labels tf ticklabelheight ticklabelwidth skipn
           set_label_state set_label_angles set_ticklabelsize] in *.
    exact Hshape.
  - destruct (fits_unsigned _); [|discriminate].
    pose proof (place_labels_inv getTextGeometry _ _ _ _ Hshape)
      as (h & w & ts & Hv').
    apply place_labels_maxima in Hshape. cbv zeta in Hshape.
    rewrite Hv'. rewrite Hv' in Hshape.
    cbn [label_angles labels tf ticklabelheight ticklabelwidth skipn
           set_label_state set_label_angles set_ticklabelsize] in *.
    rewrite Ha. exact Hshape.
Qed.

End Maxima.

Lemma running_max_step
    (dim : TextGeometry R -> R)
    (measure : TextFeatures R -> string -> TextGeometry R)
    (features : TextFeatures R) (s : string) (ss : list string) (acc : R) :
  @running_max R Exact.ops dim measure features acc (s :: ss) =
  @running_max R Exact.ops dim measure features
    (if Rlt_dec acc (dim (measure features s))
     then dim (measure features s) else acc) ss.
Proof.
  unfold running_max. cbn [fold_left]. unfold fgtb. cbn [fltb Exact.ops].
  unfold Exact.ltb. now destruct (Rlt_dec acc (dim (measure features s))).
Qed.

(** In exact arithmetic the running value is the greatest of the start
    value and the measured dimensions. *)
Lemma running_max_exact
    (dim : TextGeometry R -> R)
    (measure : TextFeatures R -> string -> TextGeometry R)
    (features : TextFeatures R) (ss : list string) :
  forall acc : R,
    let m := @running_max R Exact.ops dim measure features acc ss in
    (acc <= m)%R /\
    (forall s, In s ss -> (dim (measure features s) <= m)%R) /\
    (m = acc \/ exists s, In s ss /\ m = dim (measure features s)).
Proof.
  induction ss as [|s ss IH]; intros acc; cbv zeta.
  - cbn. split; [lra|]. split; [intros s []|now left].
  - rewrite running_max_step.
    destruct (Rlt_dec acc (dim (measure features s))) as [Hlt|Hge].
    + destruct (IH (dim (measure features s))) as (H1 & H2 & H3).
      cbv zeta in H1, H2, H3.
      split; [lra|]. split.
      * intros s' [<-|Hin]; [exact H1|now apply H2].
      * right. destruct H3 as [->|(s' & Hin & ->)].
        -- exists s. split; [now left|reflexivity].
        -- exists s'. split; [now right|reflexivity].
    + destruct (IH acc) as (H1 & H2 & H3).
      cbv zeta in H1, H2, H3.
      split; [exact H1|]. split.
      * intros s' [<-|Hin]; [lra|now apply H2].
      * destruct H3 as [->|(s' & Hin & ->)]; [now left|].
        right. exists s'. split; [now right|reflexivity].
Qed.

(** X10: in exact arithmetic, after a pass that returns, the two maxima
    are upper bounds of the measured height and width of every label that
    was placed, they are not negative, and each is either zero or the
    dimension of one of the placed labels; what the members held before the
    pass plays no role. *)
Theorem label_maxima_are_tight_upper_bounds
    (measure : TextFeatures R -> string -> TextGeometry R) (v v' : Visual R) :
  @drawTickLabels R Exact.ops measure v = Some v' ->
  let used := firstn (List.length (label_angles v')) (labels v) in
  (0 <= ticklabelheight v')%R /\
  (0 <= ticklabelwidth v')%R /\
  (forall s, In s used ->
     (height (measure (tf v) s) <= ticklabelheight v')%R /\
     (width (measure (tf v) s) <= ticklabelwidth v')%R) /\
  (ticklabelheight v' = 0%R \/
   exists s, In s used /\ ticklabelheight v' = height (measure (tf v) s)) /\
  (ticklabelwidth v' = 0%R \/
   exists s, In s used /\ ticklabelwidth v' = width (measure (tf v) s)).
Proof.
  intros Hrun. cbv zeta.
  destruct (@drawTickLabels_maxima R Exact.ops measure v v' Hrun) as [Hh Hw].
  cbv zeta in Hh, Hw. rewrite Hh, Hw.
  destruct (running_max_exact (@height R) measure (tf v)
              (firstn (List.length (label_angles v')) (labels v)) 0%R)
    as (Hh0 & Hhub & Hhat).
  destruct (running_max_exact (@width R) measure (tf v)
              (firstn (List.length (label_angles v')) (labels v)) 0%R)
    as (Hw0 & Hwub & Hwat).
  cbv zeta in *.
  split; [exact Hh0|]. split; [exact Hw0|].
  split; [|split; assumption].
  intros s Hs. split; [now apply Hhub|now apply Hwub].
Qed.

Lemma label_maxima_witness :
  exists v',
    @drawTickLabels R Exact.ops Sample.measure Sample.visual = Some v' /\
    (0 <= ticklabelheight v')%R.
Proof.
  destruct (@drawTickLabels_closed R Exact.ops Sample.measure Sample.visual)
    as (h & w & Hrun); [cbn; unfold modulus; lia | cbn; lia |].
  eexists. split; [exact Hrun|].
  apply (label_maxima_are_tight_upper_bounds Sample.measure Sample.visual _ Hrun).
Defined.

(** ** The generated angles in exact arithmetic *)

Lemma rescale_exact (x : R) :
  (0 <= x < 4 * PI)%R ->
  let a := @rescale R Exact.ops x in
  (a = x \/ a = x - 2 * PI)%R /\ (0 <= a <= 2 * PI)%R /\
  (0 < x -> 0 < a)%R.
Proof.
  intros Hx. cbv zeta. unfold rescale, fgtb. cbn. unfold Exact.ltb.
  pose proof PI_RGT_0 as Hpi.
  destruct (Rlt_dec x 0) as [Hneg|_]; [lra|].
  destruct (Rlt_dec (2 * PI) x) as [Hbig|Hsmall].
  - split; [now right|]. split; [lra|]. intros _. lra.
  - split; [now left|]. split; [lra|]. intros H0. exact H0.
Qed.

(** X11: in exact arithmetic, for N labels the angle generated at index
    i < N is pi/2 + i 2 pi / N, less 2 pi when that exceeds 2 pi: it lies
    in (0, 2 pi], has the cosine and sine of the unreduced angle, so the
    labels sit evenly spaced over the turn, and the first angle is pi/2. *)
Theorem generated_angles_are_evenly_spaced (n i : nat) :
  (i < n)%nat ->
  let raw := (PI / 2 + INR i * (2 * PI / INR n))%R in
  let a := nth i (@auto_label_angles R Exact.ops n) 0%R in
  (a = raw \/ a = raw - 2 * PI)%R /\
  (0 < a <= 2 * PI)%R /\
  cos a = cos raw /\ sin a = sin raw /\
  nth 0 (@auto_label_angles R Exact.ops n) 0%R = (PI / 2)%R.
Proof.
  intros Hi. cbv zeta.
  pose proof PI_RGT_0 as Hpi.
  assert (Hn : (0 < INR n)%R) by (apply lt_0_INR; lia).
  assert (Hnth : forall k, (k < n)%nat ->
             nth k (@auto_label_angles R Exact.ops n) 0%R
             = @rescale R Exact.ops (PI / 2 + INR k * (2 * PI / INR n))%R).
  { intros k Hk. rewrite auto_label_angles_closed.
    rewrite (nth_indep _ 0%R (@auto_angle R Exact.ops n 0%nat))
      by (now rewrite length_map, length_seq).
    rewrite (map_nth (@auto_angle R Exact.ops n)), seq_nth by exact Hk.
    cbn [Nat.add]. unfold auto_angle. cbn [pi_over_2 two_pi fadd fmul fdiv of_int Exact.ops].
    rewrite <- !INR_IZR_INZ. reflexivity. }
  assert (Hraw : forall k, (k < n)%nat ->
             (PI / 2 <= PI / 2 + INR k * (2 * PI / INR n) < PI / 2 + 2 * PI)%R).
  { intros k Hk.
    assert (Hk0 : (0 <= INR k)%R) by apply pos_INR.
    assert (Hkn : (INR k < INR n)%R) by (apply lt_INR; exact Hk).
    assert (Hq : (0 <= INR k / INR n < 1)%R).
    { split.
      - apply Rmult_le_pos; [exact Hk0|]. left. now apply Rinv_0_lt_compat.
      - apply (Rmult_lt_reg_r (INR n)); [exact Hn|].
        unfold Rdiv. rewrite Rmult_assoc, Rinv_l, Rmult_1_r, Rmult_1_l; lra. }
    replace (INR k * (2 * PI / INR n))%R with (2 * PI * (INR k / INR n))%R
      by (field; lra).
    split; nra. }
  rewrite (Hnth i Hi).
  destruct (rescale_exact (PI / 2 + INR i * (2 * PI / INR n))%R)
    as (Hcase & Hrange & Hpos).
  { destruct (Hraw i Hi). split; lra. }
  cbv zeta in *.
  split; [exact Hcase|].
  split; [destruct (Hraw i Hi); split; [apply Hpos|]; lra|].
  split; [|split].
  - destruct Hcase as [->| ->]; [reflexivity|].
    unfold Rminus. rewrite cos_plus, cos_neg, sin_neg, cos_2PI, sin_2PI. ring.
  - destruct Hcase as [->| ->]; [reflexivity|].
    unfold Rminus. rewrite sin_plus, cos_neg, sin_neg, cos_2PI, sin_2PI. ring.
  - assert (H0 : (0 < n)%nat) by lia.
    rewrite (Hnth 0%nat H0). cbn [INR]. rewrite Rmult_0_l, Rplus_0_r.
    destruct (rescale_exact (PI / 2)%R) as ([E|E] & Hr & _); [lra|exact E|].
    cbv zeta in *. rewrite E in Hr. lra.
Qed.

Lemma generated_angles_witness :
  nth 0 (@auto_label_angles R Exact.ops 4) 0%R = (PI / 2)%R.
Proof.
  apply (generated_angles_are_evenly_spaced 4 3). lia.
Defined.

(** ** The footprint of a label *)

(** X12: in exact arithmetic, for a label with half-extents that are not
    negative and a frame edge outer_radius + frame line width + gap that is
    not negative, the centre of the footprint (the anchor plus the
    half-extents) lies on the ray of the angle at the placement radius, and
    every point of the footprint, the rectangle of those half-extents about
    the centre, is at least as far from the centre of the disc as the frame
    edge: no part of the label reaches inside the frame. *)
Theorem label_footprint_stays_outside_frame
    (v : Visual R) (a : R) (g : TextGeometry R) (dx dy : R) :
  (0 <= half_width g)%R ->
  (0 <= half_height g)%R ->
  (0 <= outer_radius v + framelinewidth v + ticklabelgap v)%R ->
  (Rabs dx <= half_width g)%R ->
  (Rabs dy <= half_height g)%R ->
  let p := @lblpos R Exact.ops v a g in
  let r := @lbl_r R Exact.ops v a g in
  let edge := (outer_radius v + framelinewidth v + ticklabelgap v)%R in
  (vx p + half_width g = r * cos a)%R /\
  (vy p + half_height g = r * sin a)%R /\
  (edge * edge <=
   (vx p + half_width g + dx) * (vx p + half_width g + dx)
   + (vy p + half_height g + dy) * (vy p + half_height g + dy))%R.
Proof.
  intros Hw Hh Hedge Hdx Hdy. cbv zeta.
  unfold lblpos. cbn [vx vy fsub fmul fcos fsin Exact.ops].
  split; [ring|]. split; [ring|].
  set (r := @lbl_r R Exact.ops v a g).
  set (E := (outer_radius v + framelinewidth v + ticklabelgap v)%R) in *.
  set (c := cos a). set (s := sin a).
  assert (Hone : (s * s + c * c = 1)%R).
  { pose proof (sin2_cos2 a) as H. unfold Rsqr in H. exact H. }
  assert (Hr : r = (E + (Rabs c * half_width g + Rabs s * half_height g))%R).
  { unfold r, lbl_r, geom_gap. cbn [fadd fabs fmul fcos fsin Exact.ops].
    fold c s. rewrite !Rabs_mult.
    rewrite (Rabs_right (half_width g)), (Rabs_right (half_height g)) by lra.
    unfold E. ring. }
  assert (Hxc : (- (Rabs c * half_width g) <= dx * c)%R).
  { pose proof (Rabs_le_bounds (dx * c) (Rabs c * half_width g)) as B.
    apply B. rewrite Rabs_mult.
    pose proof (Rabs_pos c). pose proof (Rabs_pos dx). nra. }
  assert (Hys : (- (Rabs s * half_height g) <= dy * s)%R).
  { pose proof (Rabs_le_bounds (dy * s) (Rabs s * half_height g)) as B.
    apply B. rewrite Rabs_mult.
    pose proof (Rabs_pos s). pose proof (Rabs_pos dy). nra. }
  set (qx := (r * c - half_width g + half_width g + dx)%R).
  set (qy := (r * s - half_height g + half_height g + dy)%R).
  assert (Hproj : (qx * c + qy * s = r + dx * c + dy * s)%R).
  { unfold qx, qy.
    replace ((r * c - half_width g + half_width g + dx) * c
             + (r * s - half_height g + half_height g + dy) * s)%R
      with (r * (s * s + c * c) + dx * c + dy * s)%R by ring.
    rewrite Hone. ring. }
  assert (Hge : (E <= qx * c + qy * s)%R) by (rewrite Hproj; lra).
  clearbody qx qy r c s E.
  set (P := (qx * c + qy * s)%R) in *.
  assert (Hcs : (P * P <= qx * qx + qy * qy)%R).
  { pose proof (Rle_0_sqr (qx * s - qy * c)) as H0. unfold Rsqr in H0.
    replace (qx * qx + qy * qy)%R
      with ((qx * qx + qy * qy) * (s * s + c * c))%R by (rewrite Hone; ring).
    unfold P.
    replace ((qx * qx + qy * qy) * (s * s + c * c))%R
      with ((qx * c + qy * s) * (qx * c + qy * s)
            + (qx * s - qy * c) * (qx * s - qy * c))%R by ring.
    lra. }
  assert (HEP : (E * E <= P * P)%R) by (apply Rmult_le_compat; lra).
  lra.
Qed.

Lemma label_footprint_witness :
  let g := Sample.measure (tf Sample.visual) "pi"%string in
  let p := @lblpos R Exact.ops Sample.visual PI g in
  (vx p + half_width g = @lbl_r R Exact.ops Sample.visual PI g * cos PI)%R.
Proof.
  cbv zeta.
  apply (label_footprint_stays_outside_frame
           Sample.visual PI (Sample.measure (tf Sample.visual) "pi"%string) 0%R 0%R);
    cbn; try rewrite Rabs_R0; lra.
Defined.

(** ** How the passes compose *)

Section Composition.

Context {F : Type} {ops : FloatOps F}.

Variable getTextGeometry : TextFeatures F -> string -> TextGeometry F.

Lemma place_labels_set_mesh (m : Mesh F) (angles : list F) :
  forall (i : nat) (v : Visual F),
    place_labels getTextGeometry i angles (set_mesh m v) =
    option_map (set_mesh m) (place_labels getTextGeometry i angles v).
Proof.
  induction angles as [|a rest IH]; intros i v; [reflexivity|].
  cbn [place_labels]. unfold place_label.
  cbn [labels set_mesh].
  destruct (nth_error (labels v) i) as [s|]; [|reflexivity].
  cbv zeta. rewrite <- IH. f_equal.
Qed.

Lemma drawTickLabels_set_mesh (m : Mesh F) (v : Visual F) :
  drawTickLabels getTextGeometry (set_mesh m v) =
  option_map (set_mesh m) (drawTickLabels getTextGeometry v).
Proof.
  unfold drawTickLabels. cbv zeta.
  cbn [label_angles labels set_mesh set_ticklabelsize].
  destruct (label_angles v) as [|a angles].
  - destruct (fits_unsigned (labels v)); [|reflexivity].
    rewrite <- place_labels_set_mesh. reflexivity.
  - destruct (fits_unsigned (a :: angles)); [|reflexivity].
    rewrite <- place_labels_set_mesh. reflexivity.
Qed.

Lemma fill_after_drawTickLabels (v v' : Visual F) :
  drawTickLabels getTextGeometry v = Some v' ->
  fillFrameWithColour v' = set_mesh (fill_mesh v (mesh v)) v'.
Proof.
  intros Hrun.
  destruct (drawTickLabels_inv getTextGeometry v v' Hrun)
    as (h & w & ts & angles & ->).
  unfold fillFrameWithColour. now destruct v.
Qed.

End Composition.

(** X13: the tick-label pass and the fill pass commute: filling the result
    of the label pass gives what the label pass gives on the filled visual,
    and neither is defined without the other.  The label pass neither reads
    nor writes the mesh, and the fill reads none of the members the label
    pass writes. *)
Theorem labels_and_fill_commute
    {F : Type} {ops : FloatOps F}
    (getTextGeometry : TextFeatures F -> string -> TextGeometry F)
    (v : Visual F) :
  option_map fillFrameWithColour (drawTickLabels getTextGeometry v) =
  drawTickLabels getTextGeometry (fillFrameWithColour v).
Proof.
  unfold fillFrameWithColour at 2. rewrite drawTickLabels_set_mesh.
  destruct (drawTickLabels getTextGeometry v) as [v'|] eqn:Hrun; [|reflexivity].
  cbn [option_map]. f_equal. now apply fill_after_drawTickLabels with getTextGeometry.
Qed.

(** X14: when the mesh the frame step leaves is well formed with its
    offset equal to its vertex count, the segment count lies in [1, 2^30],
    the ring count is below 2^31 and the offset stays below 2^32, every run
    of the entry point that returns leaves a well-formed mesh: the three
    vertex sequences have one length, every index refers to a vertex, the
    offset equals the vertex count, and the fill has added 2 * ring_count *
    segment_count vertices to what the frame step left. *)
Theorem initialize_leaves_a_well_formed_mesh
    {F : Type} {ops : FloatOps F}
    (computeFlatCircleLine :
       vec F -> vec F -> F -> F -> rgb F -> Z -> Mesh F -> Mesh F)
    (getTextGeometry : TextFeatures F -> string -> TextGeometry F)
    (v v' : Visual F) :
  let m2 := mesh (after_frame computeFlatCircleLine getTextGeometry v) in
  mesh_wf m2 ->
  idx m2 = Z.of_nat (List.length (vertexPositions m2)) ->
  0 < numsegs v <= 2 ^ 30 ->
  0 <= numrings v < 2 ^ 31 ->
  idx m2 + 2 * numsegs v * numrings v < 2 ^ 32 ->
  initializeVertices computeFlatCircleLine getTextGeometry v = Some v' ->
  mesh_wf (mesh v') /\
  idx (mesh v') = Z.of_nat (List.length (vertexPositions (mesh v'))) /\
  Z.of_nat (List.length (vertexPositions (mesh v'))) =
    Z.of_nat (List.length (vertexPositions m2)) + 2 * numrings v * numsegs v.
Proof.
  cbv zeta. intros Hwf Hidx Hs Hr Hb Hrun.
  destruct (initializeVertices_inv computeFlatCircleLine getTextGeometry v v' Hrun)
    as (_ & Hmesh & _).
  rewrite Hmesh.
  pose proof (rings_built_small v Hr) as HR.
  pose proof (segments_built_small v) as HS.
  destruct (fill_rings_wf v ltac:(lia) ltac:(lia) (ring_range v) _ Hwf Hidx)
    as (Hwf' & Hidx').
  { fold (rings_built v). unfold modulus. nia. }
  split; [exact Hwf'|]. split; [exact Hidx'|].
  destruct (fill_mesh_counts v (mesh (after_frame computeFlatCircleLine
                                        getTextGeometry v))) as (Hp & _).
  rewrite Hp, Nat2Z.inj_add, Nat2Z.inj_mul, Nat2Z.inj_mul, HR, HS;
    unfold half_modulus; lia.
Qed.

Lemma initialize_well_formed_witness :
  exists v',
    @initializeVertices R Exact.ops Sample.ribbon Sample.measure
      (@set_flags R true true false Sample.small) = Some v' /\
    mesh_wf (mesh v').
Proof.
  eexists. split.
  - apply initializeVertices_returns. reflexivity.
  - apply (@initialize_leaves_a_well_formed_mesh R Exact.ops Sample.ribbon
             Sample.measure (@set_flags R true true false Sample.small)).
    + repeat split. constructor.
    + reflexivity.
    + cbn. lia.
    + cbn. lia.
    + cbn. lia.
    + apply initializeVertices_returns. reflexivity.
Defined.

(** ** The colour setters and the labels *)

(** X15: after [setColour c] the labels placed by the next pass carry the
    colour c and the frame colour is c; [setFrameColour c] alone leaves the
    text colour, and with it the colour of the labels, as it was, and
    [setTextColour c] alone leaves the frame colour as it was. *)
Theorem setColour_colours_labels_and_frame
    {F : Type} {ops : FloatOps F}
    (getTextGeometry : TextFeatures F -> string -> TextGeometry F)
    (c : rgb F) (v : Visual F) :
  Z.of_nat (List.length (labels v)) < 2 ^ 32 ->
  (List.length (label_angles v) <= List.length (labels v))%nat ->
  (exists v' added,
      drawTickLabels getTextGeometry (setColour c v) = Some v' /\
      texts v' = texts v ++ added /\
      List.length added = List.length (working_angles v) /\
      Forall (fun t => txt_colour t = c) added /\
      framecolour v' = c) /\
  (exists v' added,
      drawTickLabels getTextGeometry (setFrameColour c v) = Some v' /\
      texts v' = texts v ++ added /\
      List.length added = List.length (working_angles v) /\
      Forall (fun t => txt_colour t = colour (tf v)) added /\
      framecolour v' = c) /\
  framecolour (setTextColour c v) = framecolour v.
Proof.
  intros Hfit Hlen.
  pose proof (working_angles_length v Hlen) as Hw.
  split; [|split; [|reflexivity]].
  - destruct (drawTickLabels_closed getTextGeometry (setColour c v))
      as (h & w & Hrun); [exact Hfit|exact Hlen|].
    eexists. eexists. split; [exact Hrun|].
    cbn [texts framecolour set_label_state set_label_angles setColour
           setFrameColour setTextColour].
    split; [reflexivity|]. split; [|split; [|reflexivity]].
    + unfold placed. rewrite length_map, length_combine. cbn [skipn].
      change (working_angles (setColour c v)) with (working_angles v).
      change (labels (setColour c v)) with (labels v). lia.
    + apply Forall_forall. intros t Ht. unfold placed in Ht.
      apply in_map_iff in Ht. destruct Ht as (p & <- & _). reflexivity.
  - destruct (drawTickLabels_closed getTextGeometry (setFrameColour c v))
      as (h & w & Hrun); [exact Hfit|exact Hlen|].
    eexists. eexists. split; [exact Hrun|].
    cbn [texts framecolour set_label_state set_label_angles setFrameColour].
    split; [reflexivity|]. split; [|split; [|reflexivity]].
    + unfold placed. rewrite length_map, length_combine. cbn [skipn].
      change (working_angles (setFrameColour c v)) with (working_angles v).
      change (labels (setFrameColour c v)) with (labels v). lia.
    + apply Forall_forall. intros t Ht. unfold placed in Ht.
      apply in_map_iff in Ht. destruct Ht as (p & <- & _). reflexivity.
Qed.

Lemma setColour_witness :
  exists v' added,
    @drawTickLabels R Exact.ops Sample.measure
      (@setColour R (1%R, 0%R, 0%R) Sample.visual) = Some v' /\
    texts v' = texts Sample.visual ++ added /\
    List.length added = List.length (@working_angles R Exact.ops Sample.visual) /\
    Forall (fun t => txt_colour t = (1%R, 0%R, 0%R)) added.
Proof.
  destruct (@setColour_colours_labels_and_frame R Exact.ops Sample.measure
              (1%R, 0%R, 0%R) Sample.visual)
    as ((v' & added & Hrun & Ht & Hl & Hc & _) & _); [cbn; lia | cbn; lia |].
  exists v', added. repeat split; assumption.
Defined.

(** ** A second label pass *)

Lemma working_angles_stable {F : Type} {ops : FloatOps F}
      (h w : F) (ts : list (VisualTextModel F)) (v : Visual F) :
  working_angles
    (set_label_state h w ts (set_label_angles (working_angles v) v))
  = working_angles v.
Proof.
  unfold working_angles at 1.
  cbn [label_angles labels set_label_state set_label_angles].
  destruct (working_angles v) as [|a angles] eqn:E; [|reflexivity].
  unfold working_angles in E.
  destruct (label_angles v) as [|a angles]; [exact E|discriminate].
Qed.

(** X16: the label pass does not clear the text objects.  A second pass on
    the result of a first reuses the angles the first one stored and appends
    the same text objects once more, so that the texts of the first pass
    appear twice. *)
Theorem second_label_pass_appends_the_labels_again
    {F : Type} {ops : FloatOps F}
    (getTextGeometry : TextFeatures F -> string -> TextGeometry F)
    (v : Visual F) :
  Z.of_nat (List.length (labels v)) < 2 ^ 32 ->
  (List.length (label_angles v) <= List.length (labels v))%nat ->
  exists v1 v2 added,
    drawTickLabels getTextGeometry v = Some v1 /\
    drawTickLabels getTextGeometry v1 = Some v2 /\
    texts v1 = texts v ++ added /\
    texts v2 = texts v ++ added ++ added /\
    List.length added = List.length (label_angles v1) /\
    label_angles v2 = label_angles v1.
Proof.
  intros Hfit Hlen.
  pose proof (working_angles_length v Hlen) as Hw.
  destruct (drawTickLabels_closed getTextGeometry v Hfit Hlen) as (h & w & Hrun).
  set (v1 := set_label_state h w
               (texts v ++ placed getTextGeometry v 0 (working_angles v))
               (set_label_angles (working_angles v) v)) in *.
  destruct (drawTickLabels_closed getTextGeometry v1) as (h2 & w2 & Hrun2).
  { exact Hfit. }
  { exact Hw. }
  exists v1. eexists. exists (placed getTextGeometry v 0 (working_angles v)).
  split; [exact Hrun|]. split; [exact Hrun2|].
  unfold v1 at 1. cbn [texts set_label_state].
  split; [reflexivity|].
  unfold v1. rewrite working_angles_stable.
  cbn [texts label_angles set_label_state set_label_angles].
  split; [|split; [|reflexivity]].
  - rewrite <- app_assoc. reflexivity.
  - unfold placed. rewrite length_map, length_combine. cbn [skipn]. lia.
Qed.

Lemma second_label_pass_witness :
  exists v1 v2 added,
    @drawTickLabels R Exact.ops Sample.measure Sample.visual = Some v1 /\
    @drawTickLabels R Exact.ops Sample.measure v1 = Some v2 /\
    texts v2 = texts Sample.visual ++ added ++ added.
Proof.
  destruct (@second_label_pass_appends_the_labels_again R Exact.ops Sample.measure
              Sample.visual)
    as (v1 & v2 & added & H1 & H2 & _ & H4 & _); [cbn; lia | cbn; lia |].
  exists v1, v2, added. repeat split; assumption.
Defined.

(** ** The objective functions of the examples *)

Lemma square_zero (x : R) : (x * x = 0)%R -> x = 0%R.
Proof. intros Hx. destruct (Rmult_integral _ _ Hx); assumption. Qed.

(** X17: in exact arithmetic [banana] returns (1 - x)^2 + 100 (y - x^2)^2
    for the first two entries x and y of its argument, whatever follows
    them; the value is never negative and it is zero at x = 1, y = 1 and
    nowhere else.  On fewer than two entries the read is out of range. *)
Theorem banana_has_its_minimum_at_one_one :
  (forall (x y : R) (rest : list R),
      exists b,
        @banana R Exact.ops (x :: y :: rest) = Some b /\
        b = ((1 - x) * (1 - x) + 100 * (y - x * x) * (y - x * x))%R /\
        (0 <= b)%R /\
        (b = 0%R <-> x = 1%R /\ y = 1%R)) /\
  (forall xy : list R,
      (List.length xy < 2)%nat -> @banana R Exact.ops xy = None).
Proof.
  split.
  - intros x y rest. eexists. split; [reflexivity|].
    cbn [fadd fsub fmul of_int Exact.ops].
    pose proof (Rle_0_sqr (1 - x)) as HA. pose proof (Rle_0_sqr (y - x * x)) as HB.
    unfold Rsqr in HA, HB.
    split; [reflexivity|]. split; [nra|]. split.
    + intros Hzero.
      assert (HA0 : ((1 - x) * (1 - x) = 0)%R) by nra.
      assert (HB0 : ((y - x * x) * (y - x * x) = 0)%R) by nra.
      apply square_zero in HA0. apply square_zero in HB0.
      assert (Hx : x = 1%R) by lra. subst x. split; [reflexivity|lra].
    + intros [-> ->]. ring.
  - intros [|x [|y rest]] Hlen; cbn in Hlen; try lia; reflexivity.
Qed.

(** X18: in exact arithmetic [objective_boha] returns x^2 + 2 y^2 -
    0.3 cos (alpha x) - 0.4 cos (gamma y) + 0.7 for the first two entries of
    its argument; whatever the two frequencies are, the value is never
    negative and it is zero at the origin and nowhere else. *)
Theorem objective_boha_has_its_minimum_at_the_origin
    (three_pi four_pi : R) :
  (forall (x y : R) (rest : list R),
      exists f,
        @objective_boha R Exact.ops three_pi four_pi (x :: y :: rest) = Some f /\
        f = (1 * x * x + 2 * y * y - 3 / 10 * cos (three_pi * x)
             - 4 / 10 * cos (four_pi * y) + 3 / 10 + 4 / 10)%R /\
        (0 <= f)%R /\
        (f = 0%R <-> x = 0%R /\ y = 0%R)) /\
  (forall params : list R,
      (List.length params < 2)%nat ->
      @objective_boha R Exact.ops three_pi four_pi params = None).
Proof.
  split.
  - intros x y rest. eexists. split; [reflexivity|].
    cbn [fadd fsub fmul fdiv fcos of_int Exact.ops].
    pose proof (COS_bound (three_pi * x)) as [_ Hc1].
    pose proof (COS_bound (four_pi * y)) as [_ Hc2].
    pose proof (Rle_0_sqr x) as HA. pose proof (Rle_0_sqr y) as HB.
    unfold Rsqr in HA, HB.
    split; [reflexivity|]. split; [nra|]. split.
    + intros Hzero.
      assert (HA0 : (x * x = 0)%R) by nra.
      assert (HB0 : (y * y = 0)%R) by nra.
      split; now apply square_zero.
    + intros [-> ->]. rewrite !Rmult_0_r, cos_0. lra.
  - intros [|x [|y rest]] Hlen; cbn in Hlen; try lia; reflexivity.
Qed.

(** ** The border width of the Voronoi example *)

Section BorderWidth.

Variables key_up key_down press : Z.
Variable epsilon : R.
Hypothesis epsilon_pos : (0 < epsilon)%R.

Lemma key_callback_keeps_positive (key action : Z) (bw : R) :
  (0 < bw)%R ->
  (0 < @key_callback_extra R Exact.ops key_up key_down press epsilon
         key action bw)%R.
Proof.
  intros Hbw. unfold key_callback_extra, fleb.
  cbn [fadd fsub fdiv fltb feqb fzero of_int Exact.ops].
  unfold Exact.ltb, Exact.eqb.
  destruct ((key =? key_up) && (action =? press));
    destruct ((key =? key_down) && (action =? press)); try lra.
  - destruct (Rlt_dec (bw + 1 / 100 - 1 / 100) 0) as [H1|H1]; [exact epsilon_pos|].
    destruct (Req_dec_T (bw + 1 / 100 - 1 / 100) 0) as [H2|H2]; cbn; lra.
  - destruct (Rlt_dec (bw - 1 / 100) 0) as [H1|H1]; [exact epsilon_pos|].
    destruct (Req_dec_T (bw - 1 / 100) 0) as [H2|H2]; cbn; lra.
Qed.

End BorderWidth.

(** X19: in exact arithmetic, for a positive epsilon, the border width
    stays strictly positive under every sequence of key events when it
    starts positive, as it does from its initial value epsilon; a key-down
    press that would take it to zero or below sets it to epsilon; and an
    event that is not a press of the up or the down key leaves it as it
    is, in every arithmetic. *)
Theorem border_width_stays_positive
    (key_up key_down press : Z) (epsilon : R) :
  (0 < epsilon)%R ->
  (forall (events : list (Z * Z)) (bw : R),
      (0 < bw)%R ->
      (0 < @key_events R Exact.ops key_up key_down press epsilon events bw)%R) /\
  (forall events : list (Z * Z),
      (0 < @key_events R Exact.ops key_up key_down press epsilon events epsilon)%R) /\
  (forall bw : R,
      key_down <> key_up ->
      (bw <= 1 / 100)%R ->
      @key_callback_extra R Exact.ops key_up key_down press epsilon
        key_down press bw = epsilon) /\
  (forall (F : Type) (ops : FloatOps F) (eps bw : F) (key action : Z),
      (key <> key_up /\ key <> key_down) \/ action <> press ->
      @key_callback_extra F ops key_up key_down press eps key action bw = bw).
Proof.
  intros Heps.
  assert (Hinv : forall (events : list (Z * Z)) (bw : R),
             (0 < bw)%R ->
             (0 < @key_events R Exact.ops key_up key_down press epsilon events bw)%R).
  { induction events as [|e events IH]; intros bw Hbw; [exact Hbw|].
    unfold key_events. cbn [fold_left]. apply IH.
    now apply key_callback_keeps_positive. }
  split; [exact Hinv|]. split; [intros events; now apply Hinv|]. split.
  - intros bw Hne Hbw. unfold key_callback_extra, fleb.
    cbn [fadd fsub fdiv fltb feqb fzero of_int Exact.ops].
    unfold Exact.ltb, Exact.eqb.
    rewrite !Z.eqb_refl. cbn [andb].
    replace (key_down =? key_up) with false by (symmetry; now apply Z.eqb_neq).
    cbn [andb].
    destruct (Rlt_dec (bw - 1 / 100) 0) as [H1|H1]; [reflexivity|].
    destruct (Req_dec_T (bw - 1 / 100) 0) as [H2|H2]; [reflexivity|].
    exfalso. lra.
  - intros F ops eps bw key action Hother. unfold key_callback_extra.
    destruct Hother as [[Hu Hd]|Ha].
    + apply Z.eqb_neq in Hu, Hd. now rewrite Hu, Hd.
    + apply Z.eqb_neq in Ha. rewrite Ha, !andb_false_r. reflexivity.
Qed.

Lemma border_width_witness :
  Rlt 0 (@key_events R Exact.ops 265 264 1 (1 / 8388608)%R
           [(264, 1); (264, 1); (265, 1); (264, 0)] (1 / 8388608)%R).
Proof.
  apply (border_width_stays_positive 265 264 1 (1 / 8388608)%R). lra.
Defined.

(** ** The frame and the labels *)

(** X20: the frame step and the tick-label pass commute: the labels placed
    after the frame are those placed before it, and the frame built on the
    labelled visual is the frame built on the unlabelled one.  Only the gap
    has to be set before the labels, and only the frame before the fill. *)
Theorem frame_and_labels_commute
    {F : Type} {ops : FloatOps F}
    (computeFlatCircleLine :
       vec F -> vec F -> F -> F -> rgb F -> Z -> Mesh F -> Mesh F)
    (getTextGeometry : TextFeatures F -> string -> TextGeometry F)
    (v : Visual F) :
  drawTickLabels getTextGeometry (drawFrame computeFlatCircleLine v) =
  option_map (drawFrame computeFlatCircleLine) (drawTickLabels getTextGeometry v).
Proof.
  unfold drawFrame at 1. cbv zeta. rewrite drawTickLabels_set_mesh.
  destruct (drawTickLabels getTextGeometry v) as [v'|] eqn:Hrun; [|reflexivity].
  cbn [option_map]. f_equal.
  destruct (drawTickLabels_inv getTextGeometry v v' Hrun)
    as (h & w & ts & angles & ->).
  unfold drawFrame. now destruct v.
Qed.

(** ** Values outside the unit interval *)






